(** * proxytv: the playlist reconciler, the EPG filter and the provider

    A shallow embedding of [provider.go]: the playlist loader
    ([playlistLoader] with [findIndexWithID], [OnTrack], [processTrack],
    [OnPlaylistEnd]), the streaming EPG filter ([loadXMLTv]) and the
    provider's refresh cycle and read accessors ([Refresh], [GetTrack]).

    Go strings are byte strings: they are modelled as [string] (a list of
    [ascii] bytes).  Go's [int] is modelled as [Z]; every [int] of this file
    is a slice index or a slice length, far from the 64-bit bounds.  A Go
    [map[string]T] is a [gmap string T]; a slice is a [list]. *)

From Stdlib Require Import ZArith Ascii String List Sorted Permutation.
From stdpp Require Import base option list gmap strings pretty sorting.

Local Open Scope string_scope.
Local Open Scope list_scope.
Local Open Scope Z_scope.

(** ** Outcomes of fallible code

    A Go function of this file returns normally, returns a non-nil [error],
    or panics ([log.Panic], an index out of range, a nil dereference).  The
    handler callbacks return no error: their error type is [Empty_set]. *)

Inductive result (E A : Type) : Type :=
| Ok (a : A)
| Err (e : E)
| Panic (msg : string).
Arguments Ok {E A} a.
Arguments Err {E A} e.
Arguments Panic {E A} msg.

#[global] Instance result_bind {E} : MBind (result E) := fun A B k r =>
  match r with
  | Ok a => k a
  | Err e => Err e
  | Panic m => Panic m
  end.

(** ** [strings] and [regexp] of the Go library, as far as the code uses them *)

Module strings.

(** [strings.HasPrefix s prefix]. *)
Fixpoint HasPrefix (s prefix : string) : bool :=
  match prefix, s with
  | EmptyString, _ => true
  | String _ _, EmptyString => false
  | String p prefix', String c s' =>
      if Ascii.eqb p c then HasPrefix s' prefix' else false
  end.

(** [strings.Contains s substr]: [substr] occurs at some offset of [s]. *)
Fixpoint Contains (s substr : string) : bool :=
  HasPrefix s substr
  || match s with
     | EmptyString => false
     | String _ s' => Contains s' substr
     end.

End strings.

Module regexp.

(** The fragment of the regular expressions the code compiles: a
    sequence of literal bytes and greedy starred byte classes. *)
Inductive item : Type :=
| Lit (c : ascii)
| Star (cls : ascii -> bool).

Definition Regexp : Type := list item.

(** Leftmost-first matching anchored at the start of [s]: the number of
    bytes of the match, if there is one.  A greedy star takes as many
    bytes as it can and gives them back one at a time when the rest of
    the expression fails. *)
Fixpoint matchHere (re : Regexp) : string -> option nat :=
  match re with
  | [] => fun _ => Some 0%nat
  | Lit c :: re' => fun s =>
      match s with
      | String d s' => if Ascii.eqb c d then S <$> matchHere re' s' else None
      | EmptyString => None
      end
  | Star cls :: re' =>
      fix star (s : string) : option nat :=
        match s with
        | String d s' =>
            if cls d then
              match star s' with
              | Some n => Some (S n)
              | None => matchHere re' s
              end
            else matchHere re' s
        | EmptyString => matchHere re' s
        end
  end.

(** [re.ReplaceAllString] with the empty replacement, for an expression
    that matches no empty string: the scan goes left to right; where a
    match starts its bytes are dropped ([skip] counts those still to drop)
    and the scan resumes behind it; a byte where no match starts is
    copied. *)
Fixpoint removeFrom (re : Regexp) (skip : nat) (s : string) : string :=
  match s with
  | EmptyString => EmptyString
  | String c s' =>
      match skip with
      | S k => removeFrom re k s'
      | O =>
          match matchHere re s with
          | Some (S k) => removeFrom re k s'
          | _ => String c (removeFrom re O s')
          end
      end
  end.

Definition ReplaceAllString_empty (re : Regexp) (s : string) : string :=
  removeFrom re 0 s.

(** Some non-empty match of [re] starts at some offset of [s]. *)
Fixpoint containsMatch (re : Regexp) (s : string) : bool :=
  match matchHere re s with
  | Some (S _) => true
  | _ =>
      match s with
      | EmptyString => false
      | String _ s' => containsMatch re s'
      end
  end.

(** The double quote (byte 34), the class of every byte but the double
    quote, and the class [\s] (RE2: tab, newline, form feed, carriage
    return, space). *)
Definition quote : ascii := "034"%char.

Definition not_quote (c : ascii) : bool := negb (Ascii.eqb c quote).

Definition is_space (c : ascii) : bool :=
  let n := nat_of_ascii c in
  (Nat.eqb n 9 || Nat.eqb n 10 || Nat.eqb n 12 || Nat.eqb n 13 || Nat.eqb n 32)%bool.

Definition lits (s : string) : Regexp := map Lit (list_ascii_of_string s).

End regexp.

(** The expression [OnPlaylistEnd] compiles: the literal [xui-id=], a
    double quote, an opening brace, any run of bytes other than the double
    quote (greedy), a closing brace, a double quote, any run of white space
    (greedy). *)
Definition reXuiid : regexp.Regexp :=
  regexp.lits "xui-id=" ++ [regexp.Lit regexp.quote; regexp.Lit "{"%char]
  ++ [regexp.Star regexp.not_quote]
  ++ [regexp.Lit "}"%char; regexp.Lit regexp.quote]
  ++ [regexp.Star regexp.is_space].

Definition stripXuiid (raw : string) : string :=
  regexp.ReplaceAllString_empty reXuiid raw.

(** ** The data model

    [Track] and [Filter] are declared next to the parser, outside
    [provider.go]; the fields below are the ones [provider.go] reads.  The
    URI is kept as the text [track.URI.String()] yields, and a filter's
    compiled expression as its [Match] predicate. *)

Record Track : Type := {
  Name : string;
  URI : string;
  Tags : gmap string string;
  Raw : string;
}.

Record Filter : Type := {
  Type_ : string;
  regexp_Match : string -> bool;
}.

(** [track.Tags[key]]: a missing key reads as the empty string. *)
Definition tag (track : Track) (key : string) : string :=
  default "" (Tags track !! key).

(** Go's [len(s) == 0] on a string. *)
Definition len0 (s : string) : bool :=
  match s with EmptyString => true | String _ _ => false end.

Record playlistLoader : Type := {
  baseAddress : string;
  filters : list Filter;
  tracks : list Track;
  priorities : gmap string Z;
  m3u : string;
}.

Definition newPlaylistLoader (baseAddress : string) (filters : list Filter)
  : playlistLoader :=
  {| baseAddress := baseAddress; filters := filters;
     tracks := []; priorities := ∅; m3u := "" |}.

Definition set_tracks (pl : playlistLoader) (ts : list Track) : playlistLoader :=
  {| baseAddress := baseAddress pl; filters := filters pl;
     tracks := ts; priorities := priorities pl; m3u := m3u pl |}.

Definition set_priorities (pl : playlistLoader) (ps : gmap string Z)
  : playlistLoader :=
  {| baseAddress := baseAddress pl; filters := filters pl;
     tracks := tracks pl; priorities := ps; m3u := m3u pl |}.

Definition set_m3u (pl : playlistLoader) (s : string) : playlistLoader :=
  {| baseAddress := baseAddress pl; filters := filters pl;
     tracks := tracks pl; priorities := priorities pl; m3u := s |}.

(** ** The playlist reconciler *)

(** The loop of [findIndexWithID]: the first index [i], counted from
    [from], whose track carries the id; [-1] when there is none. *)
Fixpoint indexWithID (id : string) (ts : list Track) (from : Z) : Z :=
  match ts with
  | [] => -1
  | t :: ts' =>
      if String.eqb (tag t "tvg-id") id then from
      else indexWithID id ts' (from + 1)
  end.

Definition findIndexWithID (pl : playlistLoader) (track : Track) : Z :=
  let id := tag track "tvg-id" in
  if len0 id then -1 else indexWithID id (tracks pl) 0.

Definition OnPlaylistStart (pl : playlistLoader) : playlistLoader :=
  set_m3u pl ("#EXTM3U" +:+ String "010" "").

(** [processTrack].  The diagnostics (a missing id, a duplicate name) are
    log lines and change no state.  [pl.tracks[idx]] is in range whenever
    [idx] is not [-1], so the [None] branch of the lookup is never taken
    (lemma [findIndexWithID_spec]). *)
Definition processTrack (pl : playlistLoader) (track : Track) (priority : Z)
  : playlistLoader :=
  let name := Name track in
  let better :=
    match priorities pl !! name with
    | None => true
    | Some existingPriority => priority <? existingPriority
    end in
  if better then
    let idx := findIndexWithID pl track in
    if negb (idx =? -1) then
      if strings.Contains (Name track) "HD" then
        match tracks pl !! Z.to_nat idx with
        | Some old =>
            {| baseAddress := baseAddress pl; filters := filters pl;
               tracks := <[Z.to_nat idx := track]> (tracks pl);
               priorities := <[name := priority]> (delete (Name old) (priorities pl));
               m3u := m3u pl |}
        | None => pl
        end
      else pl
    else
      let pl' :=
        match priorities pl !! name with
        | None => set_tracks pl (tracks pl ++ [track])
        | Some _ => pl
        end in
      set_priorities pl' (<[name := priority]> (priorities pl'))
  else pl.

(** The tag a filter of a given type is matched against; [None] for a
    type that is none of [id], [group], [name]. *)
Definition filterField (type : string) : option string :=
  if String.eqb type "id" then Some "tvg-id"
  else if String.eqb type "group" then Some "group-title"
  else if String.eqb type "name" then Some "tvg-name"
  else None.

(** The loop of [OnTrack] over the filters from index [i] on. *)
Fixpoint OnTrack_filters (pl : playlistLoader) (track : Track) (i : Z)
    (fs : list Filter) : result Empty_set playlistLoader :=
  match fs with
  | [] => Ok pl
  | filter :: fs' =>
      match filterField (Type_ filter) with
      | None => Panic "invalid filter type"
      | Some field =>
          let val := tag track field in
          if len0 val then OnTrack_filters pl track (i + 1) fs'
          else if regexp_Match filter val
               then OnTrack_filters (processTrack pl track i) track (i + 1) fs'
               else OnTrack_filters pl track (i + 1) fs'
      end
  end.

Definition OnTrack (pl : playlistLoader) (track : Track)
  : result Empty_set playlistLoader :=
  match filters pl with
  | [] => Ok (processTrack pl track 0)
  | _ :: _ => OnTrack_filters pl track 0 (filters pl)
  end.

(** The comparison [OnPlaylistEnd] hands to [sort.SliceStable]. *)
Definition less (prios : gmap string Z) (a b : Track) : bool :=
  match prios !! Name a, prios !! Name b with
  | None, None => false
  | None, Some _ => false
  | Some _, None => true
  | Some priorityI, Some priorityJ => priorityI <? priorityJ
  end.

Module sort.

(** [sort.SliceStable] of the Go library, as the insertion sort it runs
    on a block of the slice: each element in turn moves left while it is
    less than its left neighbour.  (On a slice of more than one block the
    library merges the sorted blocks, again without moving an element past
    one that is not less.)  [insertLeft] works on the sorted prefix held
    in reverse, so the left neighbour is the head. *)
Fixpoint insertLeft {A} (less : A -> A -> bool) (x : A) (rprefix : list A)
  : list A :=
  match rprefix with
  | [] => [x]
  | y :: rest =>
      if less x y then y :: insertLeft less x rest else x :: rprefix
  end.

Definition SliceStable {A} (less : A -> A -> bool) (data : list A) : list A :=
  reverse (fold_left (fun rprefix x => insertLeft less x rprefix) data []).

End sort.

(** The rendering loop of [OnPlaylistEnd], from index [i] on. *)
Fixpoint render (baseAddress : string) (i : Z) (ts : list Track) : string :=
  match ts with
  | [] => ""
  | track :: ts' =>
      let uri :=
        if negb (len0 baseAddress)
        then "http://" +:+ baseAddress +:+ "/channel/" +:+ pretty i
        else URI track in
      let fixedRaw := stripXuiid (Raw track) in
      fixedRaw +:+ String "010" "" +:+ uri +:+ String "010" ""
      +:+ render baseAddress (i + 1) ts'
  end.

Definition OnPlaylistEnd (pl : playlistLoader) : playlistLoader :=
  let sorted := sort.SliceStable (less (priorities pl)) (tracks pl) in
  {| baseAddress := baseAddress pl; filters := filters pl;
     tracks := sorted; priorities := priorities pl;
     m3u := m3u pl +:+ render (baseAddress pl) 0 sorted |}.

(** The callbacks of one run over the tracks the parser delivers. *)
Fixpoint OnTracks (pl : playlistLoader) (ts : list Track)
  : result Empty_set playlistLoader :=
  match ts with
  | [] => Ok pl
  | track :: ts' => pl' ← OnTrack pl track; OnTracks pl' ts'
  end.

(** Modelled from the spec: [loadM3u], the playlist parser, is not part of
    [provider.go].  It drives the handler: [OnPlaylistStart], then
    [OnTrack] once per parsed track in input order, then [OnPlaylistEnd].
    [reconcile] is that run on the tracks of a playlist that parses. *)
Definition reconcile (baseAddress : string) (filters : list Filter)
    (ts : list Track) : result Empty_set playlistLoader :=
  pl ← OnTracks (OnPlaylistStart (newPlaylistLoader baseAddress filters)) ts;
  Ok (OnPlaylistEnd pl).

(** ** The programme guide

    The [xmltv] package declares the document types; [provider.go] reads a
    channel's [ID], a programme's channel reference (its field [Channel],
    here [Programme_Channel]) and the six scalar attributes of the root.
    What else an element carries is kept as one opaque payload. *)

Module xmltv.

Record Channel : Type := {
  ID : string;
  Channel_data : string;
}.

Record Programme : Type := {
  Programme_Channel : string;
  Programme_data : string;
}.

Record TV : Type := {
  Date : string;
  SourceInfoURL : string;
  SourceInfoName : string;
  SourceDataURL : string;
  GeneratorInfoName : string;
  GeneratorInfoURL : string;
  Channels : list Channel;
  Programmes : list Programme;
}.

Definition empty : TV :=
  {| Date := ""; SourceInfoURL := ""; SourceInfoName := "";
     SourceDataURL := ""; GeneratorInfoName := ""; GeneratorInfoURL := "";
     Channels := []; Programmes := [] |}.

End xmltv.

(** Go's [error] values are opaque to this file; the model keeps where an
    error was raised. *)
Inductive error : Type :=
| ErrLoadReader (uri : string)
| ErrLoadM3u
| ErrDecodeElement
| ErrMarshal.

Module xml.

(** A start element as the loop of [loadXMLTv] meets it: its local name,
    its attributes (local name and value), and what
    [decoder.DecodeElement] yields when it is asked to decode the element
    into a programme or into a channel.  [DecodeElement] reads through
    the matching end element, so the token that follows in the stream is
    the first one behind the element. *)
Record StartElement : Type := {
  Local : string;
  Attr : list (string * string);
  DecodeProgramme : result error xmltv.Programme;
  DecodeChannel : result error xmltv.Channel;
}.

(** The tokens [decoder.Token] returns before it reports the end of the
    input or an error. *)
Inductive Token : Type :=
| Start (se : StartElement)
| Other.

End xml.

(** The counters [loadXMLTv] writes to its log line. *)
Record xmltvCounts : Type := {
  totalChannelCount : Z;
  channelCount : Z;
  totalProgrammeCount : Z;
  programmeCount : Z;
}.

(** The attribute switch of the root element. *)
Definition setAttr (tvSetup : xmltv.TV) (attr : string * string) : xmltv.TV :=
  let '(name, value) := attr in
  let 'xmltv.Build_TV d siu sin sdu gin giu cs ps := tvSetup in
  if String.eqb name "date" then xmltv.Build_TV value siu sin sdu gin giu cs ps
  else if String.eqb name "source-info-url" then xmltv.Build_TV d value sin sdu gin giu cs ps
  else if String.eqb name "source-info-name" then xmltv.Build_TV d siu value sdu gin giu cs ps
  else if String.eqb name "source-data-url" then xmltv.Build_TV d siu sin value gin giu cs ps
  else if String.eqb name "generator-info-name" then xmltv.Build_TV d siu sin sdu value giu cs ps
  else if String.eqb name "generator-info-url" then xmltv.Build_TV d siu sin sdu gin value cs ps
  else tvSetup.

Definition appendProgramme (tvSetup : xmltv.TV) (p : xmltv.Programme) : xmltv.TV :=
  let 'xmltv.Build_TV d siu sin sdu gin giu cs ps := tvSetup in
  xmltv.Build_TV d siu sin sdu gin giu cs (ps ++ [p]).

Definition appendChannel (tvSetup : xmltv.TV) (c : xmltv.Channel) : xmltv.TV :=
  let 'xmltv.Build_TV d siu sin sdu gin giu cs ps := tvSetup in
  xmltv.Build_TV d siu sin sdu gin giu (cs ++ [c]) ps.

(** The map [channels] of [loadXMLTv]: the non-empty ids of the retained
    tracks, each mapped to [true]. *)
Fixpoint channelsOf (ts : list Track) (channels : gmap string bool)
  : gmap string bool :=
  match ts with
  | [] => channels
  | track :: ts' =>
      let id := tag track "tvg-id" in
      if len0 id then channelsOf ts' channels
      else channelsOf ts' (<[id := true]> channels)
  end.

(** [channels[key]]: a missing key reads as [false]. *)
Definition isChannel (channels : gmap string bool) (key : string) : bool :=
  default false (channels !! key).

(** The token loop of [loadXMLTv]; the two totals are threaded along. *)
Fixpoint loadXMLTv_loop (channels : gmap string bool) (toks : list xml.Token)
    (tvSetup : xmltv.TV) (totalChannelCount totalProgrammeCount : Z)
  : result error (xmltv.TV * xmltvCounts) :=
  match toks with
  | [] =>
      Ok (tvSetup,
          {| totalChannelCount := totalChannelCount;
             channelCount := Z.of_nat (length (xmltv.Channels tvSetup));
             totalProgrammeCount := totalProgrammeCount;
             programmeCount := Z.of_nat (length (xmltv.Programmes tvSetup)) |})
  | xml.Other :: toks' =>
      loadXMLTv_loop channels toks' tvSetup totalChannelCount totalProgrammeCount
  | xml.Start se :: toks' =>
      if String.eqb (xml.Local se) "tv" then
        loadXMLTv_loop channels toks' (fold_left setAttr (xml.Attr se) tvSetup)
          totalChannelCount totalProgrammeCount
      else if String.eqb (xml.Local se) "programme" then
        programme ← xml.DecodeProgramme se;
        let tvSetup' :=
          if isChannel channels (xmltv.Programme_Channel programme)
          then appendProgramme tvSetup programme else tvSetup in
        loadXMLTv_loop channels toks' tvSetup'
          totalChannelCount (totalProgrammeCount + 1)
      else if String.eqb (xml.Local se) "channel" then
        channel ← xml.DecodeChannel se;
        let tvSetup' :=
          if isChannel channels (xmltv.ID channel)
          then appendChannel tvSetup channel else tvSetup in
        loadXMLTv_loop channels toks' tvSetup'
          (totalChannelCount + 1) totalProgrammeCount
      else
        loadXMLTv_loop channels toks' tvSetup totalChannelCount totalProgrammeCount
  end.

(** ** The provider *)

Record Provider : Type := {
  p_iptvURL : string;
  p_epgURL : string;
  p_baseAddress : string;
  p_userAgent : string;
  p_filters : list Filter;
  p_playlist : option playlistLoader;
  p_epg : option xmltv.TV;
  p_epgData : string;
  p_lastRefresh : Z;
}.

Definition set_playlist (p : Provider) (pl : option playlistLoader) : Provider :=
  {| p_iptvURL := p_iptvURL p; p_epgURL := p_epgURL p;
     p_baseAddress := p_baseAddress p; p_userAgent := p_userAgent p;
     p_filters := p_filters p; p_playlist := pl; p_epg := p_epg p;
     p_epgData := p_epgData p; p_lastRefresh := p_lastRefresh p |}.

Definition set_epg (p : Provider) (tv : option xmltv.TV) : Provider :=
  {| p_iptvURL := p_iptvURL p; p_epgURL := p_epgURL p;
     p_baseAddress := p_baseAddress p; p_userAgent := p_userAgent p;
     p_filters := p_filters p; p_playlist := p_playlist p; p_epg := tv;
     p_epgData := p_epgData p; p_lastRefresh := p_lastRefresh p |}.

Definition set_epgData (p : Provider) (data : string) : Provider :=
  {| p_iptvURL := p_iptvURL p; p_epgURL := p_epgURL p;
     p_baseAddress := p_baseAddress p; p_userAgent := p_userAgent p;
     p_filters := p_filters p; p_playlist := p_playlist p; p_epg := p_epg p;
     p_epgData := data; p_lastRefresh := p_lastRefresh p |}.

Definition set_lastRefresh (p : Provider) (t : Z) : Provider :=
  {| p_iptvURL := p_iptvURL p; p_epgURL := p_epgURL p;
     p_baseAddress := p_baseAddress p; p_userAgent := p_userAgent p;
     p_filters := p_filters p; p_playlist := p_playlist p; p_epg := p_epg p;
     p_epgData := p_epgData p; p_lastRefresh := t |}.

(** [loadXMLTv] on the tokens of the reader.  [p.playlist] is a pointer:
    reading its tracks panics when it is nil. *)
Definition loadXMLTv (p : Provider) (toks : list xml.Token)
  : result error (xmltv.TV * xmltvCounts) :=
  match p_playlist p with
  | None => Panic "nil pointer dereference"
  | Some pl =>
      loadXMLTv_loop (channelsOf (tracks pl) ∅) toks xmltv.empty 0 0
  end.

(** What a refresh cycle takes from outside the provider: the retriever
    [loadReader] (the bytes behind a location, an error, or a panic), the
    tracks the playlist parser delivers to the handler and the error it
    ends with, if any, the tokens of the XML decoder, [xml.Marshal], and
    the clock. *)
Record Env : Type := {
  loadReader : string -> string -> result error string;
  m3u_parse : string -> list Track * option error;
  xml_tokens : string -> list xml.Token;
  xml_Marshal : xmltv.TV -> result error string;
  time_Now : Z;
}.

(** Modelled from the spec: [loadM3u] is not part of [provider.go].  It
    feeds the handler (see [reconcile]) and returns the parser's error. *)
Definition loadM3u (env : Env) (reader : string) (pl : playlistLoader)
  : result error playlistLoader :=
  let '(ts, err) := m3u_parse env reader in
  match OnTracks (OnPlaylistStart pl) ts with
  | Panic msg => Panic msg
  | Err e => match e with end
  | Ok pl' =>
      match err with
      | Some e => Err e
      | None => Ok (OnPlaylistEnd pl')
      end
  end.

Definition xmlHeader : string :=
  let q := String regexp.quote "" in
  "<?xml version=" +:+ q +:+ "1.0" +:+ q +:+ " encoding=" +:+ q +:+ "UTF-8"
  +:+ q +:+ "?><!DOCTYPE tv SYSTEM " +:+ q +:+ "xmltv.dtd" +:+ q +:+ ">".

(** [Refresh]: the provider after the call and the call's outcome. *)
Definition Refresh (env : Env) (p : Provider) : Provider * result error unit :=
  match loadReader env (p_iptvURL p) (p_userAgent p) with
  | Err e => (p, Err e)
  | Panic msg => (p, Panic msg)
  | Ok iptvReader =>
      let pl := newPlaylistLoader (p_baseAddress p) (p_filters p) in
      match loadM3u env iptvReader pl with
      | Err e => (p, Err e)
      | Panic msg => (p, Panic msg)
      | Ok pl =>
          let p := set_playlist p (Some pl) in
          match loadReader env (p_epgURL p) (p_userAgent p) with
          | Err e => (p, Err e)
          | Panic msg => (p, Panic msg)
          | Ok epgReader =>
              match loadXMLTv p (xml_tokens env epgReader) with
              | Panic msg => (p, Panic msg)
              | Err e => (set_epg p None, Err e)
              | Ok (tv, _) =>
                  let p := set_epg p (Some tv) in
                  match xml_Marshal env tv with
                  | Err e => (p, Err e)
                  | Panic msg => (p, Panic msg)
                  | Ok xmlData =>
                      let p := set_epgData p (xmlHeader +:+ xmlData) in
                      let p := set_lastRefresh p (time_Now env) in
                      (p, Ok tt)
                  end
              end
          end
      end
  end.

Definition GetM3u (p : Provider) : result error string :=
  match p_playlist p with
  | None => Panic "nil pointer dereference"
  | Some pl => Ok (m3u pl)
  end.

Definition GetEpgXML (p : Provider) : string := p_epgData p.

Definition trackNotFound : Track :=
  {| Name := ""; URI := ""; Tags := ∅; Raw := "" |}.

(** [GetTrack]: the guard compares [idx] with the length only; indexing a
    slice with a negative [idx] panics. *)
Definition GetTrack (p : Provider) (idx : Z) : result error Track :=
  match p_playlist p with
  | None => Panic "nil pointer dereference"
  | Some pl =>
      if idx >=? Z.of_nat (length (tracks pl)) then Ok trackNotFound
      else
        if idx <? 0 then Panic "index out of range"
        else
          match tracks pl !! Z.to_nat idx with
          | Some track => Ok track
          | None => Panic "index out of range"
          end
  end.

Definition GetLastRefresh (p : Provider) : Z := p_lastRefresh p.

(** ** Creating the provider

    [Config] is declared outside [provider.go]; the fields below are the
    ones [NewProvider] reads.  The zero [time.Time] of a provider that has
    not refreshed yet is [0]. *)

Record Config : Type := {
  IPTVUrl : string;
  EPGUrl : string;
  Filters : list Filter;
  UserAgent : string;
  UseFFMPEG : bool;
  ServerAddress : string;
}.

Definition set_userAgent (p : Provider) (ua : string) : Provider :=
  {| p_iptvURL := p_iptvURL p; p_epgURL := p_epgURL p;
     p_baseAddress := p_baseAddress p; p_userAgent := ua;
     p_filters := p_filters p; p_playlist := p_playlist p; p_epg := p_epg p;
     p_epgData := p_epgData p; p_lastRefresh := p_lastRefresh p |}.

Definition set_baseAddress (p : Provider) (address : string) : Provider :=
  {| p_iptvURL := p_iptvURL p; p_epgURL := p_epgURL p;
     p_baseAddress := address; p_userAgent := p_userAgent p;
     p_filters := p_filters p; p_playlist := p_playlist p; p_epg := p_epg p;
     p_epgData := p_epgData p; p_lastRefresh := p_lastRefresh p |}.

Definition NewProvider (config : Config) : result error Provider :=
  let provider :=
    {| p_iptvURL := IPTVUrl config; p_epgURL := EPGUrl config;
       p_baseAddress := ""; p_userAgent := "";
       p_filters := Filters config; p_playlist := None; p_epg := None;
       p_epgData := ""; p_lastRefresh := 0 |} in
  let provider :=
    if negb (len0 (UserAgent config))
    then set_userAgent provider (UserAgent config) else provider in
  let provider :=
    if UseFFMPEG config
    then set_baseAddress provider (ServerAddress config) else provider in
  Ok provider.

(** ** Predicates of the statements *)

(** A filter matches a track: the tag of the filter's type is present
    and non-empty on the track and the expression matches its value. *)
Definition matches (f : Filter) (t : Track) : bool :=
  match filterField (Type_ f) with
  | Some field => negb (len0 (tag t field)) && regexp_Match f (tag t field)
  | None => false
  end.

(** The index, counted from [i], of the first filter that matches. *)
Fixpoint firstMatch (fs : list Filter) (t : Track) (i : Z) : option Z :=
  match fs with
  | [] => None
  | f :: fs' => if matches f t then Some i else firstMatch fs' t (i + 1)
  end.

(** The tokens the loop of [loadXMLTv] acts on. *)
Definition relevant (tok : xml.Token) : bool :=
  match tok with
  | xml.Other => false
  | xml.Start se =>
      String.eqb (xml.Local se) "tv" || String.eqb (xml.Local se) "programme"
      || String.eqb (xml.Local se) "channel"
  end.

(** The six scalar header fields of a document. *)
Definition header (tv : xmltv.TV) : list string :=
  [ xmltv.Date tv; xmltv.SourceInfoURL tv; xmltv.SourceInfoName tv;
    xmltv.SourceDataURL tv; xmltv.GeneratorInfoName tv;
    xmltv.GeneratorInfoURL tv ].

(** The attributes of the [tv] start elements of a stream, in stream
    order. *)
Fixpoint tvAttrs (toks : list xml.Token) : list (string * string) :=
  match toks with
  | [] => []
  | xml.Other :: toks' => tvAttrs toks'
  | xml.Start se :: toks' =>
      if String.eqb (xml.Local se) "tv" then xml.Attr se ++ tvAttrs toks'
      else tvAttrs toks'
  end.

(** The text [OnPlaylistEnd] writes for the track at position [i]. *)
Definition entry (baseAddress : string) (i : Z) (track : Track) : string :=
  stripXuiid (Raw track) +:+ String "010" ""
  +:+ (if negb (len0 baseAddress)
       then "http://" +:+ baseAddress +:+ "/channel/" +:+ pretty i
       else URI track)
  +:+ String "010" "".

(** Two providers with the same configuration. *)
Definition same_config (p q : Provider) : Prop :=
  p_iptvURL p = p_iptvURL q /\ p_epgURL p = p_epgURL q
  /\ p_baseAddress p = p_baseAddress q /\ p_userAgent p = p_userAgent q
  /\ p_filters p = p_filters q.


(** No two entries of a track list carry the same non-empty [tvg-id]. *)
Definition unique_ids (ts : list Track) : Prop :=
  forall (i j : nat) (ti tj : Track),
    ts !! i = Some ti -> ts !! j = Some tj ->
    tag ti "tvg-id" = tag tj "tvg-id" -> tag ti "tvg-id" <> "" -> i = j.

(** The same, on the list of the non-empty ids. *)
Definition ids_nodup (ts : list Track) : Prop :=
  NoDup (filter (fun id => id <> "") ((fun t => tag t "tvg-id") <$> ts)).

(** No retained track shares a non-empty id with [track]. *)
Definition id_unshared (pl : playlistLoader) (track : Track) : Prop :=
  tag track "tvg-id" = ""
  \/ Forall (fun t => tag t "tvg-id" <> tag track "tvg-id") (tracks pl).

(** The order of the final sort: a recorded priority is compared by
    value, and a name without a recorded priority comes last. *)
Definition priority_le (prios : gmap string Z) (a b : Track) : Prop :=
  match prios !! Name a, prios !! Name b with
  | Some pa, Some pb => pa <= pb
  | _, None => True
  | None, Some _ => False
  end.

(** Every filter has one of the three types [OnTrack] knows. *)
Definition valid_filters (fs : list Filter) : Prop :=
  Forall (fun f => is_Some (filterField (Type_ f))) fs.




(** The retained channel-ID set: the non-empty ids of the retained
    tracks. *)
Definition retainedChannelIDs (ts : list Track) : gset string :=
  list_to_set (filter (fun id => id <> "") ((fun t => tag t "tvg-id") <$> ts)).

(** The programmes and the channels of an input: what the [programme] and
    the [channel] start elements the loop meets decode to, in input
    order. *)
Fixpoint programmesOf (toks : list xml.Token) : list xmltv.Programme :=
  match toks with
  | [] => []
  | xml.Other :: toks' => programmesOf toks'
  | xml.Start se :: toks' =>
      if String.eqb (xml.Local se) "programme" then
        match xml.DecodeProgramme se with
        | Ok programme => programme :: programmesOf toks'
        | _ => programmesOf toks'
        end
      else programmesOf toks'
  end.

Fixpoint channelElementsOf (toks : list xml.Token) : list xmltv.Channel :=
  match toks with
  | [] => []
  | xml.Other :: toks' => channelElementsOf toks'
  | xml.Start se :: toks' =>
      if String.eqb (xml.Local se) "channel" then
        match xml.DecodeChannel se with
        | Ok channel => channel :: channelElementsOf toks'
        | _ => channelElementsOf toks'
        end
      else channelElementsOf toks'
  end.

(** Every [programme] and every [channel] element of the input decodes. *)
Definition isOk {E A} (r : result E A) : bool :=
  match r with Ok _ => true | _ => false end.

Definition decodes (tok : xml.Token) : bool :=
  match tok with
  | xml.Other => true
  | xml.Start se =>
      if String.eqb (xml.Local se) "tv" then true
      else if String.eqb (xml.Local se) "programme"
           then isOk (xml.DecodeProgramme se)
      else if String.eqb (xml.Local se) "channel"
           then isOk (xml.DecodeChannel se)
      else true
  end.

(** The first half of a refresh cycle: the playlist is retrieved and
    handed to the parser with a fresh loader. *)
Definition loadPlaylist (env : Env) (p : Provider) : result error playlistLoader :=
  reader ← loadReader env (p_iptvURL p) (p_userAgent p);
  loadM3u env reader (newPlaylistLoader (p_baseAddress p) (p_filters p)).

(** The states a sequence of admissions goes through: the state after
    each [processTrack], in order. *)
Fixpoint run_states (pl : playlistLoader) (steps : list (Track * Z))
  : list playlistLoader :=
  match steps with
  | [] => []
  | (t, priority) :: steps' =>
      let pl' := processTrack pl t priority in
      pl' :: run_states pl' steps'
  end.

(** Every byte of a string is in a class. *)
Fixpoint allb (cls : ascii -> bool) (s : string) : bool :=
  match s with
  | EmptyString => true
  | String c s' => cls c && allb cls s'
  end.

(** A string starts with a byte of a class. *)
Definition startsWith (cls : ascii -> bool) (s : string) : bool :=
  match s with
  | EmptyString => false
  | String c _ => cls c
  end.

(** The fragment [xui-id=], double quote, opening brace, [w], closing
    brace, double quote, followed by the white space [ws]. *)
Definition xuiFragment (w ws : string) : string :=
  "xui-id=" +:+ String regexp.quote ("{" +:+ w +:+ "}"
  +:+ String regexp.quote ws).

(** ** Inputs of the examples *)

Definition track (name id tvgName uri : string) : Track :=
  {| Name := name; URI := uri;
     Tags := {[ "tvg-id" := id; "tvg-name" := tvgName ]};
     Raw := "#EXTINF:-1," +:+ name |}.

(** A [name] filter whose expression matches the values that start with
    [prefix]. *)
Definition prefixFilter (prefix : string) : Filter :=
  {| Type_ := "name"; regexp_Match := fun val => strings.HasPrefix val prefix |}.

Definition espn_tracks : list Track :=
  [ track "ESPN" "1" "ESPN" "http://a/1";
    track "ESPN HD" "1" "ESPN HD" "http://a/2";
    track "Other" "2" "Other" "http://a/3" ].

Definition dq : string := String regexp.quote "".

(** A line whose two halves close up to a fragment once the fragment
    between them is removed. *)
Definition nested_xui : string :=
  "xui-xui-id=" +:+ dq +:+ "{}" +:+ dq +:+ "id=" +:+ dq +:+ "{}" +:+ dq.

Definition extinf_line : string :=
  "#EXTINF:-1 tvg-id=" +:+ dq +:+ "a" +:+ dq +:+ " xui-id=" +:+ dq +:+ "{123}"
  +:+ dq +:+ " tvg-name=" +:+ dq +:+ "b" +:+ dq +:+ ",Name".

(** A loader whose list holds tracks with and without a recorded
    priority. *)
Definition mixed_loader : playlistLoader :=
  {| baseAddress := "host:8080"; filters := [];
     tracks := [ track "U1" "1" "" "http://a/1"; track "M1" "2" "" "http://a/2";
                 track "M0" "3" "" "http://a/3"; track "U2" "4" "" "http://a/4";
                 track "N1" "5" "" "http://a/5" ];
     priorities := {[ "M1" := 1; "M0" := 0; "N1" := 1 ]};
     m3u := "" |}.

(** Two tracks with the name [ESPN HD] and the id [1]. *)
Definition hd_first : Track := track "ESPN HD" "1" "ESPN HD" "http://a/1".
Definition hd_second : Track := track "ESPN HD" "1" "ESPN HD" "http://b/1".

(** The loader once [hd_first] has been admitted at priority 0. *)
Definition hd_loader : playlistLoader :=
  processTrack (newPlaylistLoader "" [prefixFilter "ESPN"]) hd_first 0.

(** Two tracks with the name [ESPN] and the id [1]. *)
Definition sd_first : Track := track "ESPN" "1" "ESPN" "http://a/1".
Definition sd_second : Track := track "ESPN" "1" "ESPN" "http://b/1".

Definition sd_loader : playlistLoader :=
  processTrack (newPlaylistLoader "" [prefixFilter "ESPN"]) sd_first 0.

(** A name that loses its priority and gets a worse one: [a_first] is
    admitted by the first filter, [b_hd] takes its place under the shared
    id, and [a_again] brings the name back by the second filter. *)
Definition two_filters : list Filter :=
  [prefixFilter "first"; prefixFilter "second"].
Definition a_first : Track := track "A" "1" "first" "http://a/1".
Definition b_hd : Track := track "B HD" "1" "second" "http://a/2".
Definition a_again : Track := track "A" "2" "second" "http://a/3".

(** Two tracks with one name and different ids. *)
Definition a_id1 : Track := track "A" "1" "A" "http://a/1".
Definition a_id2 : Track := track "A" "2" "A" "http://a/2".


Definition provider_of (pl : playlistLoader) : Provider :=
  {| p_iptvURL := "iptv.m3u"; p_epgURL := "epg.xml"; p_baseAddress := "";
     p_userAgent := ""; p_filters := []; p_playlist := Some pl;
     p_epg := None; p_epgData := ""; p_lastRefresh := 0 |}.

(** A guide with one channel and one programme for each of the ids [1]
    and [9], and a programme that does not decode. *)
Definition element (name : string) (id : string) : xml.StartElement :=
  {| xml.Local := name; xml.Attr := [];
     xml.DecodeProgramme :=
       Ok {| xmltv.Programme_Channel := id; xmltv.Programme_data := "show" |};
     xml.DecodeChannel :=
       Ok {| xmltv.ID := id; xmltv.Channel_data := "name" |} |}.

Definition guide : list xml.Token :=
  [ xml.Start {| xml.Local := "tv"; xml.Attr := [("date", "20240101")];
                 xml.DecodeProgramme := Err ErrDecodeElement;
                 xml.DecodeChannel := Err ErrDecodeElement |};
    xml.Start (element "channel" "1"); xml.Other;
    xml.Start (element "channel" "9"); xml.Other;
    xml.Start (element "programme" "9"); xml.Other;
    xml.Start (element "programme" "1"); xml.Other ].

Definition broken_guide : list xml.Token :=
  guide ++ [xml.Start {| xml.Local := "programme"; xml.Attr := [];
                         xml.DecodeProgramme := Err ErrDecodeElement;
                         xml.DecodeChannel := Err ErrDecodeElement |}].

(** A playlist none of whose tracks has an id (an empty [tvg-id], no
    [tvg-id] at all), a playlist with one such track beside [hd_first],
    and a guide with a channel and a programme for the id [1] and a
    channel and a programme whose reference is empty. *)
Definition idless_loader : playlistLoader :=
  set_tracks (newPlaylistLoader "" [])
    [ track "A" "" "A" "http://a/1";
      {| Name := "B"; URI := "http://a/2"; Tags := ∅; Raw := "#EXTINF:-1,B" |} ].

Definition half_idless_loader : playlistLoader :=
  set_tracks (newPlaylistLoader "" [])
    [ track "A" "" "A" "http://a/1"; hd_first ].

Definition guide_empty_refs : list xml.Token :=
  [ xml.Start (element "channel" ""); xml.Start (element "channel" "1");
    xml.Other;
    xml.Start (element "programme" "1"); xml.Start (element "programme" "");
    xml.Other ].

(** A cycle in which every source answers. *)
Definition sources_up : Env :=
  {| loadReader := fun _ _ => Ok "bytes";
     m3u_parse := fun _ => (espn_tracks, None);
     xml_tokens := fun _ => guide;
     xml_Marshal := fun _ => Ok "<tv></tv>";
     time_Now := 200 |}.

(** A provider that serves a snapshot, and two cycles that fail after the
    playlist has been parsed: in the first the guide cannot be retrieved,
    in the second it holds an element that does not decode. *)
Definition serving : Provider :=
  {| p_iptvURL := "iptv.m3u"; p_epgURL := "epg.xml"; p_baseAddress := "";
     p_userAgent := ""; p_filters := [];
     p_playlist := Some (OnPlaylistEnd (OnPlaylistStart hd_loader));
     p_epg := Some xmltv.empty; p_epgData := "<tv></tv>"; p_lastRefresh := 100 |}.

Definition epg_unreachable : Env :=
  {| loadReader := fun uri _ =>
       if String.eqb uri "iptv.m3u" then Ok "playlist"
       else Err (ErrLoadReader uri);
     m3u_parse := fun _ => (espn_tracks, None);
     xml_tokens := fun _ => guide;
     xml_Marshal := fun _ => Ok "<tv></tv>";
     time_Now := 200 |}.

Definition epg_broken : Env :=
  {| loadReader := fun _ _ => Ok "bytes";
     m3u_parse := fun _ => (espn_tracks, None);
     xml_tokens := fun _ => broken_guide;
     xml_Marshal := fun _ => Ok "<tv></tv>";
     time_Now := 200 |}.

Definition iptv_unreachable : Env :=
  {| loadReader := fun uri _ => Err (ErrLoadReader uri);
     m3u_parse := fun _ => (espn_tracks, None);
     xml_tokens := fun _ => guide;
     xml_Marshal := fun _ => Ok "<tv></tv>";
     time_Now := 200 |}.

(** * Properties *)

(** ** Removing the [xui-id] fragment *)

Section Remove.
Variable re : regexp.Regexp.

Lemma removeFrom_length (s : string) : forall skip,
  (String.length (regexp.removeFrom re skip s) <= String.length s)%nat.
Proof.
  induction s as [|c s IH]; intros skip; simpl; [lia|].
  destruct skip as [|k]; [|specialize (IH k); lia].
  destruct (regexp.matchHere re (String c s)) as [[|k]|]; simpl.
  - specialize (IH 0%nat); lia.
  - specialize (IH k); lia.
  - specialize (IH 0%nat); lia.
Qed.

Lemma removeFrom_no_match (s : string) :
  regexp.containsMatch re s = false -> regexp.removeFrom re 0 s = s.
Proof.
  induction s as [|c s IH]; simpl; [done|].
  destruct (regexp.matchHere re (String c s)) as [[|k]|]; intros H;
    try discriminate; by rewrite IH.
Qed.

Lemma matchHere_length : forall (r : regexp.Regexp) (s : string) (n : nat),
  regexp.matchHere r s = Some n -> (n <= String.length s)%nat.
Proof.
  induction r as [|[c|cls] r IH]; intros s n; simpl.
  - intros [= <-]; lia.
  - destruct s as [|d s]; [done|].
    destruct (Ascii.eqb c d); [|done].
    destruct (regexp.matchHere r s) as [m|] eqn:E; simpl; intros [= <-].
    apply IH in E; simpl; lia.
  - revert n; induction s as [|d s IHs]; intros n.
    + apply IH.
    + destruct (cls d).
      * match goal with |- context [match ?f s with _ => _ end] =>
          destruct (f s) as [m|] eqn:E end.
        -- intros [= <-]. specialize (IHs m eq_refl). simpl; lia.
        -- apply IH.
      * apply IH.
Qed.

Lemma removeFrom_match_shrinks (s : string) :
  regexp.containsMatch re s = true ->
  (String.length (regexp.removeFrom re 0 s) < String.length s)%nat.
Proof.
  induction s as [|c s IH]; simpl.
  - destruct (regexp.matchHere re EmptyString) as [[|k]|] eqn:E; try done.
    apply matchHere_length in E; simpl in E; lia.
  - destruct (regexp.matchHere re (String c s)) as [[|k]|]; simpl; intros H.
    + apply IH in H; lia.
    + pose proof (removeFrom_length s k); lia.
    + apply IH in H; lia.
Qed.

Lemma removeFrom_fixpoint (s : string) :
  regexp.removeFrom re 0 s = s <-> regexp.containsMatch re s = false.
Proof.
  split; [|apply removeFrom_no_match].
  intros Heq. destruct (regexp.containsMatch re s) eqn:E; [|done].
  apply removeFrom_match_shrinks in E. rewrite Heq in E; lia.
Qed.

End Remove.

(** C9, as the code has it: removing the fragment twice gives the same as
    removing it once exactly when the line stripped once holds no fragment
    any more (removing a fragment can close the text on its two sides up to
    a new one); a line that holds no fragment is returned as it is. *)
Theorem stripXuiid_twice (raw : string) :
  (stripXuiid (stripXuiid raw) = stripXuiid raw
   <-> regexp.containsMatch reXuiid (stripXuiid raw) = false)
  /\ (regexp.containsMatch reXuiid raw = false -> stripXuiid raw = raw).
Proof.
  split.
  - apply removeFrom_fixpoint.
  - apply removeFrom_no_match.
Qed.

Lemma stripXuiid_twice_witness :
  regexp.containsMatch reXuiid (stripXuiid extinf_line) = false
  /\ stripXuiid (stripXuiid extinf_line) = stripXuiid extinf_line.
Proof.
  split; [vm_compute; reflexivity|].
  apply (proj1 (stripXuiid_twice extinf_line)). vm_compute; reflexivity.
Defined.

(** C9 fails as stated: on [nested_xui] the first removal leaves a
    fragment, which the second removal takes away. *)
Lemma stripXuiid_not_idempotent :
  stripXuiid nested_xui = "xui-id=" +:+ dq +:+ "{}" +:+ dq
  /\ stripXuiid (stripXuiid nested_xui) = ""
  /\ ~ (forall raw, stripXuiid (stripXuiid raw) = stripXuiid raw).
Proof.
  split; [vm_compute; reflexivity|].
  split; [vm_compute; reflexivity|].
  intros H. specialize (H nested_xui). vm_compute in H. discriminate.
Qed.

(** ** The reconciler: one admission *)

Lemma len0_spec (s : string) : len0 s = true <-> s = "".
Proof. destruct s; simpl; split; congruence. Qed.

Lemma indexWithID_spec (id : string) (ts : list Track) : forall from : Z,
  0 <= from ->
  (indexWithID id ts from = -1
   /\ Forall (fun t => tag t "tvg-id" <> id) ts)
  \/ (exists (i : nat) (old : Track),
        indexWithID id ts from = from + Z.of_nat i
        /\ ts !! i = Some old /\ tag old "tvg-id" = id
        /\ Forall (fun t => tag t "tvg-id" <> id) (take i ts)).
Proof.
  induction ts as [|t ts IH]; intros from Hfrom; simpl.
  - left; split; [done|constructor].
  - destruct (String.eqb_spec (tag t "tvg-id") id) as [Heq|Hne].
    + right. exists 0%nat, t. repeat split; [lia|done|constructor].
    + destruct (IH (from + 1) ltac:(lia)) as [[H1 H2]|(i & old & H1 & H2 & H3 & H4)].
      * left; split; [done|by constructor].
      * right. exists (S i), old. repeat split; [lia|done|done|].
        simpl. by constructor.
Qed.

(** [findIndexWithID] returns [-1] or the first index of a retained track
    that carries the non-empty id of [track]. *)
Lemma findIndexWithID_spec (pl : playlistLoader) (track : Track) :
  (findIndexWithID pl track = -1 /\ id_unshared pl track)
  \/ (exists (i : nat) (old : Track),
        findIndexWithID pl track = Z.of_nat i
        /\ tracks pl !! i = Some old
        /\ tag old "tvg-id" = tag track "tvg-id"
        /\ tag track "tvg-id" <> ""
        /\ Forall (fun t => tag t "tvg-id" <> tag track "tvg-id")
             (take i (tracks pl))).
Proof.
  unfold findIndexWithID, id_unshared.
  destruct (len0 (tag track "tvg-id")) eqn:E.
  - left. apply len0_spec in E. auto.
  - assert (tag track "tvg-id" <> "") as Hne.
    { intros H. apply len0_spec in H. congruence. }
    destruct (indexWithID_spec (tag track "tvg-id") (tracks pl) 0 ltac:(lia))
      as [[H1 H2]|(i & old & H1 & H2 & H3 & H4)].
    + left; auto.
    + right. exists i, old. repeat split; try done; lia.
Qed.

(** The four outcomes of [processTrack]: the track is discarded; it
    replaces the retained track with its id; it is appended; only the
    priority of its name is improved. *)
Lemma processTrack_cases (pl : playlistLoader) (track : Track) (priority : Z) :
  processTrack pl track priority = pl
  \/ (exists (i : nat) (old : Track),
        tracks pl !! i = Some old
        /\ tag old "tvg-id" = tag track "tvg-id"
        /\ tag track "tvg-id" <> ""
        /\ strings.Contains (Name track) "HD" = true
        /\ (priorities pl !! Name track = None
            \/ exists e, priorities pl !! Name track = Some e /\ priority < e)
        /\ processTrack pl track priority =
            {| baseAddress := baseAddress pl; filters := filters pl;
               tracks := <[i := track]> (tracks pl);
               priorities :=
                 <[Name track := priority]> (delete (Name old) (priorities pl));
               m3u := m3u pl |})
  \/ (priorities pl !! Name track = None
      /\ id_unshared pl track
      /\ processTrack pl track priority =
          {| baseAddress := baseAddress pl; filters := filters pl;
             tracks := tracks pl ++ [track];
             priorities := <[Name track := priority]> (priorities pl);
             m3u := m3u pl |})
  \/ (exists e, priorities pl !! Name track = Some e /\ priority < e
      /\ id_unshared pl track
      /\ processTrack pl track priority =
          set_priorities pl (<[Name track := priority]> (priorities pl))).
Proof.
  unfold processTrack.
  destruct (findIndexWithID_spec pl track)
    as [[-> Hun]|(i & old & -> & Hi & Hid & Hne & _)].
  - simpl. destruct (priorities pl !! Name track) as [e|] eqn:E.
    + destruct (Z.ltb_spec priority e); [|by left].
      right; right; right. exists e. auto.
    + right; right; left. auto.
  - replace (Z.of_nat i =? -1) with false by (symmetry; apply Z.eqb_neq; lia).
    rewrite Nat2Z.id, Hi. simpl.
    destruct (strings.Contains (Name track) "HD") eqn:HD.
    + destruct (priorities pl !! Name track) as [e|] eqn:E.
      * destruct (Z.ltb_spec priority e); [|by left].
        right; left. exists i, old. repeat split; try done. right. by exists e.
      * right; left. exists i, old. repeat split; try done. by left.
    + left. by destruct (match priorities pl !! Name track with
                         | Some e => priority <? e | None => true end).
Qed.

(** ** The reconciler: ids stay unique *)

Lemma ids_nodup_unique (ts : list Track) : ids_nodup ts -> unique_ids ts.
Proof.
  unfold ids_nodup, unique_ids.
  induction ts as [|t ts IH]; intros Hnd i j ti tj Hi Hj Heq Hne; [done|].
  rewrite fmap_cons, filter_cons in Hnd.
  assert (forall u, u ∈ ts -> tag u "tvg-id" = tag t "tvg-id" ->
                    tag t "tvg-id" <> "" -> False) as Hhead.
  { intros u Hu Hut Ht. destruct (decide (tag t "tvg-id" <> "")); [|done].
    apply NoDup_cons in Hnd as [Hnotin _]. apply Hnotin.
    apply list_elem_of_filter. split; [done|].
    apply list_elem_of_fmap. by exists u. }
  assert (NoDup (filter (fun id => id <> "")
                   ((fun t => tag t "tvg-id") <$> ts))) as Htl.
  { destruct (decide (tag t "tvg-id" <> "")); [|done].
    by apply NoDup_cons in Hnd as [_ ?]. }
  destruct i as [|i], j as [|j]; simpl in *; simplify_eq.
  - done.
  - exfalso. apply (Hhead tj); [by eapply list_elem_of_lookup_2|done|done].
  - exfalso. apply (Hhead ti); [by eapply list_elem_of_lookup_2|done|congruence].
  - f_equal. by eapply IH.
Qed.

Lemma ids_nodup_perm (ts ts' : list Track) :
  ts ≡ₚ ts' -> ids_nodup ts -> ids_nodup ts'.
Proof. unfold ids_nodup. by intros ->. Qed.

Lemma ids_nodup_processTrack (pl : playlistLoader) (track : Track) (priority : Z) :
  ids_nodup (tracks pl) -> ids_nodup (tracks (processTrack pl track priority)).
Proof.
  intros Hnd.
  destruct (processTrack_cases pl track priority)
    as [->|[(i & old & Hi & Hid & _ & _ & _ & ->)
           |[(Hnone & Hun & ->)|(e & _ & _ & _ & ->)]]]; simpl; try done.
  - unfold ids_nodup. rewrite list_fmap_insert, <- Hid.
    rewrite list_insert_id; [done|]. by rewrite list_lookup_fmap, Hi.
  - unfold ids_nodup in *. rewrite fmap_app, filter_app. simpl.
    rewrite filter_cons, filter_nil.
    destruct (decide (tag track "tvg-id" <> "")) as [Hne|]; [|by rewrite app_nil_r].
    apply NoDup_app. split; [done|]. split; [|apply NoDup_singleton].
    intros id Hin ->%list_elem_of_singleton.
    apply list_elem_of_filter in Hin as [_ Hin].
    apply list_elem_of_fmap in Hin as (u & Hu & Hin).
    destruct Hun as [|Hun]; [done|].
    rewrite Forall_forall in Hun. by apply (Hun u).
Qed.

Lemma ids_nodup_OnTrack_filters (track : Track) (fs : list Filter) :
  forall (pl pl' : playlistLoader) (i : Z),
    OnTrack_filters pl track i fs = Ok pl' ->
    ids_nodup (tracks pl) -> ids_nodup (tracks pl').
Proof.
  induction fs as [|f fs IH]; intros pl pl' i; simpl.
  - by intros [= <-].
  - destruct (filterField (Type_ f)); [|done].
    destruct (len0 _); [apply IH|].
    destruct (regexp_Match f _); [|apply IH].
    intros H Hnd. eapply IH; [exact H|]. by apply ids_nodup_processTrack.
Qed.

Lemma ids_nodup_OnTrack (pl pl' : playlistLoader) (track : Track) :
  OnTrack pl track = Ok pl' -> ids_nodup (tracks pl) -> ids_nodup (tracks pl').
Proof.
  unfold OnTrack. destruct (filters pl).
  - intros [= <-]. apply ids_nodup_processTrack.
  - apply ids_nodup_OnTrack_filters.
Qed.

Lemma ids_nodup_OnTracks (ts : list Track) : forall pl pl' : playlistLoader,
  OnTracks pl ts = Ok pl' -> ids_nodup (tracks pl) -> ids_nodup (tracks pl').
Proof.
  induction ts as [|t ts IH]; intros pl pl'; simpl.
  - by intros [= <-].
  - destruct (OnTrack pl t) as [pl1| |] eqn:E; simpl; try done.
    intros H Hnd. eapply IH; [exact H|]. by eapply ids_nodup_OnTrack.
Qed.

(** A run returns whenever the filter types are valid; a filter of
    another type makes [OnTrack] panic. *)
Lemma processTrack_filters (pl : playlistLoader) (track : Track) (priority : Z) :
  filters (processTrack pl track priority) = filters pl.
Proof.
  destruct (processTrack_cases pl track priority)
    as [->|[(? & ? & _ & _ & _ & _ & _ & ->)
           |[(_ & _ & ->)|(? & _ & _ & _ & ->)]]]; done.
Qed.

Lemma OnTrack_filters_returns (track : Track) (fs : list Filter) :
  valid_filters fs ->
  forall (pl : playlistLoader) (i : Z),
    exists pl', OnTrack_filters pl track i fs = Ok pl'
                /\ filters pl' = filters pl.
Proof.
  induction 1 as [|f fs [field Hf] _ IH]; intros pl i; simpl.
  - by exists pl.
  - rewrite Hf. destruct (len0 _); [apply IH|].
    destruct (regexp_Match f _); [|apply IH].
    destruct (IH (processTrack pl track i) (i + 1)) as (pl' & -> & Hfs).
    exists pl'. by rewrite Hfs, processTrack_filters.
Qed.

Lemma OnTracks_returns (ts : list Track) : forall pl : playlistLoader,
  valid_filters (filters pl) ->
  exists pl', OnTracks pl ts = Ok pl' /\ filters pl' = filters pl.
Proof.
  induction ts as [|t ts IH]; intros pl Hv; simpl.
  - by exists pl.
  - assert (exists pl1, OnTrack pl t = Ok pl1 /\ filters pl1 = filters pl)
      as (pl1 & -> & Hfs).
    { unfold OnTrack. destruct (filters pl) as [|f fs] eqn:E.
      - eexists. split; [done|]. by rewrite processTrack_filters.
      - rewrite <- E. apply OnTrack_filters_returns. by rewrite E. }
    simpl. destruct (IH pl1) as (pl' & -> & Hfs'); [by rewrite Hfs|].
    exists pl'. by rewrite Hfs', Hfs.
Qed.

Lemma reconcile_returns (base : string) (fs : list Filter) (ts : list Track) :
  valid_filters fs -> exists pl, reconcile base fs ts = Ok pl.
Proof.
  intros Hv. unfold reconcile.
  destruct (OnTracks_returns ts (OnPlaylistStart (newPlaylistLoader base fs)) Hv)
    as (pl & -> & _).
  by eexists.
Qed.

Lemma OnTrack_invalid_filter (pl : playlistLoader) (track : Track)
    (f : Filter) (fs : list Filter) :
  filters pl = f :: fs -> filterField (Type_ f) = None ->
  OnTrack pl track = Panic "invalid filter type".
Proof. intros Hfs Hf. unfold OnTrack. rewrite Hfs. simpl. by rewrite Hf. Qed.

(** ** [sort.SliceStable] *)

Section SliceStable.
Context {A : Type} (lt : A -> A -> bool).

Lemma insertLeft_perm (x : A) (r : list A) : sort.insertLeft lt x r ≡ₚ x :: r.
Proof.
  induction r as [|y r IH]; simpl; [done|].
  destruct (lt x y); [|done]. rewrite IH. apply perm_swap.
Qed.

Lemma insertion_perm (data : list A) : forall acc : list A,
  fold_left (fun r x => sort.insertLeft lt x r) data acc ≡ₚ data ++ acc.
Proof.
  induction data as [|x data IH]; intros acc; simpl; [done|].
  rewrite IH, insertLeft_perm. by rewrite Permutation_middle.
Qed.

Lemma SliceStable_perm (data : list A) : sort.SliceStable lt data ≡ₚ data.
Proof.
  unfold sort.SliceStable.
  by rewrite reverse_Permutation, insertion_perm, app_nil_r.
Qed.

(** An element never moves past one of its own class: the members of a
    class [P] that [lt] does not separate keep their order. *)
Section Stable.
Context (P : A -> Prop) `{!forall x, Decision (P x)}.
Hypothesis P_not_lt : forall x y, P x -> P y -> lt x y = false.

Lemma insertLeft_filter (x : A) (r : list A) :
  filter P (sort.insertLeft lt x r) = filter P (x :: r).
Proof.
  induction r as [|y r IH]; simpl; [done|].
  destruct (lt x y) eqn:E; [|done].
  rewrite !filter_cons in *. rewrite IH.
  destruct (decide (P x)), (decide (P y)); try done.
  by rewrite P_not_lt in E.
Qed.

Lemma insertion_filter (data : list A) : forall acc : list A,
  filter P (fold_left (fun r x => sort.insertLeft lt x r) data acc)
  = reverse (filter P data) ++ filter P acc.
Proof.
  induction data as [|x data IH]; intros acc; simpl; [done|].
  rewrite IH, insertLeft_filter, !filter_cons.
  destruct (decide (P x)); [|done].
  by rewrite reverse_cons, <- app_assoc.
Qed.

Lemma SliceStable_filter (data : list A) :
  filter P (sort.SliceStable lt data) = filter P data.
Proof.
  unfold sort.SliceStable.
  rewrite filter_reverse, insertion_filter, filter_nil, app_nil_r.
  apply reverse_involutive.
Qed.
End Stable.

(** With [lt] the strict part of a total preorder [le], the result is
    sorted. *)
Section Sorted.
Context (le : A -> A -> Prop).
Hypothesis le_trans : forall x y z, le x y -> le y z -> le x z.
Hypothesis lt_le : forall x y, lt x y = true -> le x y.
Hypothesis not_lt_le : forall x y, lt x y = false -> le y x.

Lemma insertLeft_sorted (x : A) (r : list A) :
  StronglySorted (flip le) r ->
  StronglySorted (flip le) (sort.insertLeft lt x r).
Proof.
  induction 1 as [|y r Hs IH Hall]; simpl.
  - repeat constructor.
  - destruct (lt x y) eqn:E.
    + constructor; [done|].
      rewrite insertLeft_perm. constructor; [by apply lt_le|done].
    + constructor; [by constructor|].
      apply not_lt_le in E. constructor; [done|].
      eapply Forall_impl; [exact Hall|]. unfold flip; simpl. eauto.
Qed.

Lemma insertion_sorted (data : list A) : forall acc : list A,
  StronglySorted (flip le) acc ->
  StronglySorted (flip le)
    (fold_left (fun r x => sort.insertLeft lt x r) data acc).
Proof.
  induction data as [|x data IH]; intros acc Hacc; simpl; [done|].
  by apply IH, insertLeft_sorted.
Qed.

Lemma StronglySorted_reverse (l : list A) :
  StronglySorted (flip le) l -> StronglySorted le (reverse l).
Proof.
  induction 1 as [|y r Hs IH Hall]; [constructor|].
  rewrite reverse_cons. apply StronglySorted_app.
  split; [|split; [done|repeat constructor]].
  intros a b Ha ->%list_elem_of_singleton.
  rewrite elem_of_reverse in Ha. rewrite Forall_forall in Hall.
  exact (Hall a Ha).
Qed.

Lemma SliceStable_sorted (data : list A) :
  StronglySorted le (sort.SliceStable lt data).
Proof.
  apply StronglySorted_reverse, insertion_sorted. constructor.
Qed.
End Sorted.

End SliceStable.

(** C2: whatever the filters and the input tracks, the list the run ends
    with holds no two entries with the same non-empty [tvg-id]. *)
Theorem reconcile_unique_ids (base : string) (fs : list Filter)
    (ts : list Track) (pl : playlistLoader) :
  reconcile base fs ts = Ok pl -> unique_ids (tracks pl).
Proof.
  unfold reconcile.
  destruct (OnTracks _ ts) as [pl1| |] eqn:E; simpl; try done.
  intros [= <-]. apply ids_nodup_unique. simpl.
  eapply ids_nodup_perm; [symmetry; apply SliceStable_perm|].
  eapply ids_nodup_OnTracks; [exact E|]. simpl. constructor.
Qed.

Lemma reconcile_unique_ids_witness :
  exists pl, reconcile "" [prefixFilter "ESPN"] espn_tracks = Ok pl
             /\ unique_ids (tracks pl).
Proof.
  eexists. split; [vm_compute; reflexivity|].
  apply (reconcile_unique_ids "" [prefixFilter "ESPN"] espn_tracks).
  vm_compute; reflexivity.
Defined.

(** The scenario [ESPN], [ESPN HD], [Other] under one [name] filter for
    the prefix [ESPN]: [ESPN HD] takes the place of [ESPN]; [Other] matches
    no filter and is never offered to [processTrack]. *)
Example reconcile_espn :
  exists pl, reconcile "" [prefixFilter "ESPN"] espn_tracks = Ok pl
             /\ Name <$> tracks pl = ["ESPN HD"]
             /\ priorities pl = {[ "ESPN HD" := 0 ]}.
Proof. eexists. repeat split; vm_compute; reflexivity. Qed.

(** ** The final order *)

Lemma less_priority_le (prios : gmap string Z) (a b : Track) :
  less prios a b = true -> priority_le prios a b.
Proof.
  unfold less, priority_le.
  destruct (prios !! Name a), (prios !! Name b); try done.
  intros ?%Z.ltb_lt; lia.
Qed.

Lemma not_less_priority_le (prios : gmap string Z) (a b : Track) :
  less prios a b = false -> priority_le prios b a.
Proof.
  unfold less, priority_le.
  destruct (prios !! Name a), (prios !! Name b); try done.
  intros ?%Z.ltb_ge; lia.
Qed.

Lemma priority_le_trans (prios : gmap string Z) (a b c : Track) :
  priority_le prios a b -> priority_le prios b c -> priority_le prios a c.
Proof.
  unfold priority_le.
  destruct (prios !! Name a), (prios !! Name b), (prios !! Name c);
    try done; lia.
Qed.

Lemma less_same_priority (prios : gmap string Z) (k : option Z) (a b : Track) :
  prios !! Name a = k -> prios !! Name b = k -> less prios a b = false.
Proof.
  unfold less. intros -> ->. destruct k; [apply Z.ltb_irrefl|done].
Qed.

(** In a list sorted by [priority_le] the tracks with a recorded priority
    come first. *)
Lemma sorted_matched_first (prios : gmap string Z) (l : list Track) :
  StronglySorted (priority_le prios) l ->
  l = filter (fun t => is_Some (prios !! Name t)) l
      ++ filter (fun t => prios !! Name t = None) l.
Proof.
  induction 1 as [|x l Hs IH Hall]; [done|].
  rewrite !filter_cons.
  destruct (decide (is_Some (prios !! Name x))) as [Hx|Hx].
  - destruct (decide (prios !! Name x = None)) as [Hn|_].
    + rewrite Hn in Hx. by destruct Hx.
    + simpl. by rewrite <- IH.
  - apply eq_None_not_Some in Hx.
    destruct (decide (prios !! Name x = None)); [|done].
    assert (Forall (fun t => prios !! Name t = None) l) as Hnone.
    { eapply Forall_impl; [exact Hall|]. intros b. unfold priority_le.
      rewrite Hx. by destruct (prios !! Name b). }
    replace (filter (fun t => is_Some (prios !! Name t)) l) with (@nil Track).
    + simpl. f_equal. symmetry. clear -Hnone.
      induction Hnone as [|y l Hy _ IH]; [done|].
      by rewrite filter_cons_True, IH.
    + symmetry. clear -Hnone.
      induction Hnone as [|y l Hy _ IH]; [done|].
      rewrite filter_cons_False; [done|]. rewrite Hy. by intros [? ?].
Qed.

Example OnPlaylistEnd_mixed :
  Name <$> tracks (OnPlaylistEnd mixed_loader) = ["M0"; "M1"; "N1"; "U1"; "U2"]
  /\ m3u (OnPlaylistEnd (set_tracks mixed_loader [track "U1" "1" "" "http://a/1"]))
     = "#EXTINF:-1,U1" +:+ String "010" "http://host:8080/channel/0"
       +:+ String "010" "".
Proof. split; vm_compute; reflexivity. Qed.

Lemma filter_unmatched (prios : gmap string Z) (k : option Z) (l : list Track) :
  k = None ->
  filter (fun t => prios !! Name t = k) l
  = filter (fun t => prios !! Name t = None) l.
Proof. intros ->. by apply list_filter_iff. Qed.

(** C3: [OnPlaylistEnd] leaves the priorities alone and puts the retained
    tracks in the order of a stable sort by recorded priority: the result
    is a permutation of the retained list; it is sorted by priority, a
    track without a recorded priority counting as last; the tracks of one
    priority, and the tracks without one, keep their relative order; and
    the result is the tracks with a recorded priority followed by the
    tracks without one in their original order. *)
Theorem OnPlaylistEnd_stable_sort (pl : playlistLoader) :
  let prios := priorities pl in
  let out := tracks (OnPlaylistEnd pl) in
  priorities (OnPlaylistEnd pl) = prios
  /\ out ≡ₚ tracks pl
  /\ StronglySorted (priority_le prios) out
  /\ (forall k : option Z,
        filter (fun t => prios !! Name t = k) out
        = filter (fun t => prios !! Name t = k) (tracks pl))
  /\ out = filter (fun t => is_Some (prios !! Name t)) out
           ++ filter (fun t => prios !! Name t = None) (tracks pl).
Proof.
  cbv zeta. unfold OnPlaylistEnd. cbn [tracks priorities].
  assert (StronglySorted (priority_le (priorities pl))
            (sort.SliceStable (less (priorities pl)) (tracks pl))) as Hsorted.
  { apply SliceStable_sorted;
      eauto using priority_le_trans, less_priority_le, not_less_priority_le. }
  assert (forall k : option Z,
            filter (fun t => priorities pl !! Name t = k)
              (sort.SliceStable (less (priorities pl)) (tracks pl))
            = filter (fun t => priorities pl !! Name t = k) (tracks pl))
    as Hstable.
  { intros k. apply SliceStable_filter. intros x y. apply less_same_priority. }
  repeat split; try done.
  - apply SliceStable_perm.
  - rewrite (sorted_matched_first _ _ Hsorted) at 1. f_equal.
    rewrite <- !(filter_unmatched _ None _ eq_refl). apply Hstable.
Qed.

(** ** Two tracks with one name and one id *)

Lemma unshared_not_retained (pl : playlistLoader) (t old : Track) (i : nat) :
  id_unshared pl t -> tracks pl !! i = Some old ->
  tag old "tvg-id" = tag t "tvg-id" -> tag t "tvg-id" <> "" -> False.
Proof.
  intros [Hempty|Hall] Hi Hid Hne; [done|].
  rewrite Forall_forall in Hall. apply (Hall old); [|done].
  by eapply list_elem_of_lookup_2.
Qed.

(** C4, as the code has it: a second track with the name and the non-empty
    id of a retained first one, whose name contains [HD], replaces the
    first at the first's position when it is admitted at a priority
    strictly better (lower) than the one recorded for the name; at the
    recorded priority or a worse one it is discarded and the state stays
    as it is.  The retained ids are unique, as they are in every run. *)
Theorem processTrack_HD_replaces (pl : playlistLoader) (first second : Track)
    (i : nat) (p1 priority : Z) :
  unique_ids (tracks pl) ->
  tracks pl !! i = Some first ->
  priorities pl !! Name first = Some p1 ->
  Name second = Name first ->
  tag second "tvg-id" = tag first "tvg-id" ->
  tag first "tvg-id" <> "" ->
  strings.Contains (Name second) "HD" = true ->
  (priority < p1 ->
     tracks (processTrack pl second priority) = <[i := second]> (tracks pl)
     /\ priorities (processTrack pl second priority) !! Name second
        = Some priority)
  /\ (p1 <= priority -> processTrack pl second priority = pl).
Proof.
  intros Huniq Hi Hp1 Hname Hid Hne HD. split.
  - intros Hlt.
    destruct (processTrack_cases pl second priority)
      as [Hsame|[(j & old & Hj & Hjid & _ & _ & _ & ->)
               |[(Hnone & _)|(e & _ & _ & Hun & _)]]].
    + exfalso. revert Hsame. unfold processTrack.
      rewrite Hname, Hp1. replace (priority <? p1) with true
        by (symmetry; apply Z.ltb_lt; lia).
      destruct (findIndexWithID_spec pl second)
        as [[_ Hun]|(j & old & -> & Hj & _)].
      * exfalso. eapply unshared_not_retained; eauto; congruence.
      * replace (Z.of_nat j =? -1) with false
          by (symmetry; apply Z.eqb_neq; lia).
        rewrite Nat2Z.id, Hj. simpl. rewrite <- Hname, HD.
        intros Heq. apply (f_equal priorities) in Heq. simpl in Heq.
        apply (f_equal (fun m => m !! Name second)) in Heq.
        rewrite lookup_insert_eq, Hname, Hp1 in Heq. simplify_eq. lia.
    + simpl. assert (j = i) as ->.
      { eapply Huniq; eauto; congruence. }
      split; [done|]. apply lookup_insert_eq.
    + congruence.
    + exfalso. eapply unshared_not_retained; eauto; congruence.
  - intros Hge. unfold processTrack. rewrite Hname, Hp1.
    by replace (priority <? p1) with false by (symmetry; apply Z.ltb_ge; lia).
Qed.

Lemma processTrack_HD_replaces_witness :
  tracks (processTrack (set_priorities hd_loader {[ "ESPN HD" := 1 ]})
            hd_second 0) = [hd_second].
Proof.
  apply (processTrack_HD_replaces
           (set_priorities hd_loader {[ "ESPN HD" := 1 ]})
           hd_first hd_second 0 1 0).
  - intros [|[|i]] [|[|j]] ti tj; vm_compute; congruence.
  - reflexivity.
  - reflexivity.
  - reflexivity.
  - reflexivity.
  - vm_compute; congruence.
  - reflexivity.
  - lia.
Defined.

(** C4 fails as stated: [hd_second] is offered at priority 0, the priority
    recorded for [hd_first], matches the same filter, and is discarded. *)
Lemma equal_priority_HD_not_replaced :
  tracks hd_loader !! 0%nat = Some hd_first
  /\ priorities hd_loader !! Name hd_first = Some 0
  /\ Name hd_second = Name hd_first
  /\ tag hd_second "tvg-id" = tag hd_first "tvg-id"
  /\ tag hd_first "tvg-id" <> ""
  /\ strings.Contains (Name hd_second) "HD" = true
  /\ OnTrack hd_loader hd_second = Ok hd_loader
  /\ processTrack hd_loader hd_second 0 = hd_loader
  /\ tracks (processTrack hd_loader hd_second 0)
     <> <[0%nat := hd_second]> (tracks hd_loader).
Proof.
  repeat split; try (vm_compute; congruence).
Qed.

(** C5: when the first track is retained, a second track with its name and
    its non-empty id whose name does not contain [HD] is discarded at
    every priority: [processTrack] returns the state it was given, and so
    does [OnTrack] whenever it returns. *)
Theorem processTrack_non_HD_discarded (pl : playlistLoader)
    (first second : Track) (i : nat) :
  tracks pl !! i = Some first ->
  Name second = Name first ->
  tag second "tvg-id" = tag first "tvg-id" ->
  tag first "tvg-id" <> "" ->
  strings.Contains (Name second) "HD" = false ->
  (forall priority, processTrack pl second priority = pl)
  /\ (forall pl', OnTrack pl second = Ok pl' -> pl' = pl).
Proof.
  intros Hi Hname Hid Hne HD.
  assert (forall priority, processTrack pl second priority = pl) as Hstep.
  { intros priority.
    destruct (processTrack_cases pl second priority)
      as [Hsame|[(j & old & _ & _ & _ & HD' & _)
               |[(_ & Hun & _)|(e & _ & _ & Hun & _)]]]; try done.
    - congruence.
    - exfalso. eapply unshared_not_retained; eauto; congruence.
    - exfalso. eapply unshared_not_retained; eauto; congruence. }
  split; [done|].
  unfold OnTrack. destruct (filters pl) as [|f fs] eqn:Hfs.
  - intros pl' [= <-]. apply Hstep.
  - generalize (f :: fs) 0. clear Hfs. intros l.
    induction l as [|g l IH]; intros k pl'; simpl.
    + by intros [= <-].
    + destruct (filterField (Type_ g)); [|done].
      destruct (len0 _); [apply IH|].
      destruct (regexp_Match g _); [|apply IH].
      rewrite Hstep. apply IH.
Qed.

Lemma processTrack_non_HD_discarded_witness :
  (forall priority, processTrack sd_loader sd_second priority = sd_loader)
  /\ (forall pl', OnTrack sd_loader sd_second = Ok pl' -> pl' = sd_loader).
Proof.
  apply (processTrack_non_HD_discarded sd_loader sd_first sd_second 0).
  - reflexivity.
  - reflexivity.
  - reflexivity.
  - vm_compute; congruence.
  - reflexivity.
Defined.

(** ** [GetTrack] *)

(** C10: with a playlist in place and a non-negative index, [GetTrack]
    returns the empty sentinel track when the index is at or past the
    length of the retained list and the track at the index otherwise; the
    guard looks at the upper bound only, and a negative index panics. *)
Theorem GetTrack_bounds (p : Provider) (pl : playlistLoader) (idx : Z) :
  p_playlist p = Some pl ->
  (0 <= idx -> Z.of_nat (length (tracks pl)) <= idx ->
     GetTrack p idx = Ok trackNotFound)
  /\ (0 <= idx -> idx < Z.of_nat (length (tracks pl)) ->
      exists t, tracks pl !! Z.to_nat idx = Some t /\ GetTrack p idx = Ok t)
  /\ (idx < 0 -> GetTrack p idx = Panic "index out of range").
Proof.
  intros Hpl. unfold GetTrack. rewrite Hpl. repeat split.
  - intros _ Hge.
    by replace (idx >=? _) with true by (symmetry; apply Z.geb_le; lia).
  - intros Hnn Hlt.
    replace (idx >=? _) with false
      by (symmetry; rewrite Z.geb_leb; apply Z.leb_gt; lia).
    replace (idx <? 0) with false by (symmetry; apply Z.ltb_ge; lia).
    destruct (lookup_lt_is_Some_2 (tracks pl) (Z.to_nat idx) ltac:(lia))
      as [t Ht].
    exists t. by rewrite Ht.
  - intros Hneg.
    replace (idx >=? _) with false
      by (symmetry; rewrite Z.geb_leb; apply Z.leb_gt; lia).
    by replace (idx <? 0) with true by (symmetry; apply Z.ltb_lt; lia).
Qed.

Lemma GetTrack_bounds_witness :
  GetTrack (provider_of hd_loader) 0 = Ok hd_first
  /\ GetTrack (provider_of hd_loader) 1 = Ok trackNotFound
  /\ GetTrack (provider_of hd_loader) (-1) = Panic "index out of range".
Proof.
  pose proof (GetTrack_bounds (provider_of hd_loader) hd_loader 0 eq_refl)
    as (_ & H0 & _).
  pose proof (GetTrack_bounds (provider_of hd_loader) hd_loader 1 eq_refl)
    as (H1 & _ & _).
  pose proof (GetTrack_bounds (provider_of hd_loader) hd_loader (-1) eq_refl)
    as (_ & _ & H2).
  split; [|split].
  - destruct H0 as (t & Ht & ->); [lia|vm_compute; reflexivity|].
    assert (Some hd_first = Some t) as [= <-] by exact Ht. reflexivity.
  - apply H1; [lia|vm_compute; congruence].
  - apply H2; lia.
Defined.

(** ** The priority map *)

Lemma processTrack_priority_step (pl : playlistLoader) (t : Track)
    (priority : Z) (name : string) (v v' : Z) :
  priorities pl !! name = Some v ->
  priorities (processTrack pl t priority) !! name = Some v' ->
  v' <= v.
Proof.
  intros Hv.
  destruct (processTrack_cases pl t priority)
    as [->|[(i & old & _ & _ & _ & _ & Hadm & ->)
           |[(Hnone & _ & ->)|(e & He & Hlt & _ & ->)]]]; simpl.
  - rewrite Hv. intros [= <-]; lia.
  - destruct (decide (name = Name t)) as [->|Hne].
    + rewrite lookup_insert_eq. intros [= <-].
      destruct Hadm as [?|(e & ? & ?)]; simplify_eq; lia.
    + rewrite lookup_insert_ne by done.
      intros Hd. apply lookup_delete_Some in Hd as [_ Hd].
      simplify_eq; lia.
  - destruct (decide (name = Name t)) as [->|Hne]; [congruence|].
    rewrite lookup_insert_ne by done. rewrite Hv. intros [= <-]; lia.
  - destruct (decide (name = Name t)) as [->|Hne].
    + rewrite lookup_insert_eq. intros [= <-]. simplify_eq; lia.
    + rewrite lookup_insert_ne by done. rewrite Hv. intros [= <-]; lia.
Qed.

(** C8, as the code has it: a name is a key of the map at most once (two
    values recorded for one name are the same value); one admission leaves
    a name that stays recorded with its value or a smaller one; and along
    any sequence of admissions through which the name stays recorded its
    value never exceeds the one it started with.  (An admission that
    replaces a retained track deletes that track's name from the map; the
    name can come back later with any priority.) *)
Theorem priority_non_increasing (pl : playlistLoader)
    (steps : list (Track * Z)) (name : string) (v : Z) :
  priorities pl !! name = Some v ->
  Forall (fun s => is_Some (priorities s !! name)) (run_states pl steps) ->
  (forall v1 v2, priorities pl !! name = Some v1 ->
                 priorities pl !! name = Some v2 -> v1 = v2)
  /\ (forall t priority v',
        priorities (processTrack pl t priority) !! name = Some v' -> v' <= v)
  /\ Forall (fun s => exists v', priorities s !! name = Some v' /\ v' <= v)
       (run_states pl steps).
Proof.
  intros Hv Hall. split; [congruence|]. split.
  { intros t priority v'. by apply processTrack_priority_step. }
  revert pl v Hv Hall.
  induction steps as [|[t priority] steps IH]; intros pl v Hv Hall; simpl.
  - constructor.
  - simpl in Hall. apply Forall_cons in Hall as [[v' Hv'] Hall].
    pose proof (processTrack_priority_step pl t priority name v v' Hv Hv').
    constructor; [by exists v'|].
    eapply Forall_impl; [apply (IH _ v' Hv' Hall)|].
    intros s (w & Hw & ?). exists w. split; [done|lia].
Qed.

Lemma priority_non_increasing_witness :
  Forall (fun s => exists v', priorities s !! "ESPN HD" = Some v' /\ v' <= 1)
    (run_states (set_priorities hd_loader {[ "ESPN HD" := 1 ]})
       [(hd_second, 0); (hd_first, 0)]).
Proof.
  apply (priority_non_increasing
           (set_priorities hd_loader {[ "ESPN HD" := 1 ]})
           [(hd_second, 0); (hd_first, 0)] "ESPN HD" 1).
  - reflexivity.
  - repeat constructor; vm_compute; eauto.
Defined.

(** C8 fails as stated: in the run of [two_filters] on [a_first], [b_hd],
    [a_again] the name [A] is recorded at priority 0, loses its entry when
    [b_hd] replaces [a_first], and is recorded again at priority 1. *)
Lemma priority_can_get_worse :
  exists s1 s2 s3,
    OnTrack (newPlaylistLoader "" two_filters) a_first = Ok s1
    /\ OnTrack s1 b_hd = Ok s2
    /\ OnTrack s2 a_again = Ok s3
    /\ priorities s1 !! "A" = Some 0
    /\ priorities s2 !! "A" = None
    /\ priorities s3 !! "A" = Some 1.
Proof.
  do 3 eexists. repeat split; vm_compute; reflexivity.
Qed.

(** ** A run without filters *)









(** Of two tracks with one name the later is retained after all when the
    earlier has been replaced in between: [b_hd] takes the place of
    [a_id1] under the id [1], the name [A] loses its priority, and [a_id2]
    is appended. *)
Example same_name_after_replacement :
  exists pl, reconcile "" [] [a_id1; b_hd; a_id2] = Ok pl
             /\ tracks pl = [b_hd; a_id2].
Proof. eexists. split; vm_compute; reflexivity. Qed.


(** ** The EPG filter *)

Lemma isChannel_insert (channels : gmap string bool) (id key : string) :
  isChannel (<[id := true]> channels) key = true
  <-> key = id \/ isChannel channels key = true.
Proof.
  unfold isChannel. destruct (decide (id = key)) as [->|Hne].
  - rewrite lookup_insert_eq. simpl. split; [by left|done].
  - rewrite lookup_insert_ne by done. split; [by right|].
    by intros [->|?].
Qed.

Lemma isChannel_channelsOf (ts : list Track) :
  forall (channels : gmap string bool) (key : string),
    isChannel (channelsOf ts channels) key = true
    <-> isChannel channels key = true \/ key ∈ retainedChannelIDs ts.
Proof.
  unfold retainedChannelIDs.
  induction ts as [|t ts IH]; intros channels key; simpl.
  - split; [by left|]. intros [?|H]; [done|]. by apply elem_of_empty in H.
  - rewrite filter_cons.
    destruct (len0 (tag t "tvg-id")) eqn:E.
    + apply len0_spec in E. rewrite IH.
      destruct (decide (tag t "tvg-id" <> "")); [done|]. done.
    + assert (tag t "tvg-id" <> "") as Hne.
      { intros H. apply len0_spec in H. congruence. }
      destruct (decide (tag t "tvg-id" <> "")); [|done].
      rewrite IH, isChannel_insert. simpl.
      rewrite elem_of_union, elem_of_singleton. tauto.
Qed.

Lemma isChannel_retained (ts : list Track) (key : string) :
  isChannel (channelsOf ts ∅) key = true <-> key ∈ retainedChannelIDs ts.
Proof.
  rewrite isChannel_channelsOf. unfold isChannel at 1.
  rewrite lookup_empty. simpl. split; [by intros [?|?]|by right].
Qed.

Lemma setAttr_lists (tv : xmltv.TV) (attr : string * string) :
  xmltv.Programmes (setAttr tv attr) = xmltv.Programmes tv
  /\ xmltv.Channels (setAttr tv attr) = xmltv.Channels tv.
Proof.
  destruct tv, attr as [name value]. unfold setAttr.
  repeat (match goal with |- context [if ?b then _ else _] => destruct b end);
    done.
Qed.

Lemma setAttrs_lists (attrs : list (string * string)) : forall tv : xmltv.TV,
  xmltv.Programmes (fold_left setAttr attrs tv) = xmltv.Programmes tv
  /\ xmltv.Channels (fold_left setAttr attrs tv) = xmltv.Channels tv.
Proof.
  induction attrs as [|a attrs IH]; intros tv; simpl; [done|].
  destruct (IH (setAttr tv a)) as [-> ->]. apply setAttr_lists.
Qed.

(** What the token loop returns, from any point of the stream. *)
Lemma loadXMLTv_loop_spec (channels : gmap string bool) (toks : list xml.Token) :
  forall (tv0 : xmltv.TV) (tc tp : Z),
    match loadXMLTv_loop channels toks tv0 tc tp with
    | Ok (tv, n) =>
        forallb decodes toks = true
        /\ xmltv.Programmes tv =
           xmltv.Programmes tv0
           ++ filter (fun P => isChannel channels (xmltv.Programme_Channel P) = true)
                (programmesOf toks)
        /\ xmltv.Channels tv =
           xmltv.Channels tv0
           ++ filter (fun c => isChannel channels (xmltv.ID c) = true)
                (channelElementsOf toks)
        /\ totalProgrammeCount n = tp + Z.of_nat (length (programmesOf toks))
        /\ totalChannelCount n = tc + Z.of_nat (length (channelElementsOf toks))
        /\ programmeCount n = Z.of_nat (length (xmltv.Programmes tv))
        /\ channelCount n = Z.of_nat (length (xmltv.Channels tv))
    | _ => forallb decodes toks = false
    end.
Proof.
  induction toks as [|[[name attrs dp dc]|] toks IH]; intros tv0 tc tp; simpl.
  - rewrite filter_nil, !app_nil_r. repeat split; lia.
  - destruct (String.eqb_spec name "tv") as [->|Htv]; simpl.
    + specialize (IH (fold_left setAttr attrs tv0) tc tp).
      destruct (setAttrs_lists attrs tv0) as [HP HC].
      rewrite HP, HC in IH. exact IH.
    + destruct (String.eqb_spec name "programme") as [->|Hp]; simpl.
      * destruct dp as [P| |]; simpl; try done.
        match goal with |- context [loadXMLTv_loop _ _ ?tv' _ _] =>
          specialize (IH tv' tc (tp + 1)) end.
        destruct (loadXMLTv_loop _ _ _ _ _) as [[tv n]| |]; try done.
        destruct IH as (Hd & HP & HC & Htp & Htc & Hpc & Hcc).
        rewrite filter_cons.
        destruct tv0 as [d siu sin sdu gin giu cs ps].
        destruct (isChannel channels (xmltv.Programme_Channel P)) eqn:E;
          simpl in *.
        -- destruct (decide (true = true)); [|done].
           rewrite <- app_assoc in HP. repeat split; try done; lia.
        -- destruct (decide (false = true)); [done|].
           repeat split; try done; lia.
      * destruct (String.eqb_spec name "channel") as [->|Hc]; simpl.
        -- destruct dc as [c| |]; simpl; try done.
           match goal with |- context [loadXMLTv_loop _ _ ?tv' _ _] =>
             specialize (IH tv' (tc + 1) tp) end.
           destruct (loadXMLTv_loop _ _ _ _ _) as [[tv n]| |]; try done.
           destruct IH as (Hd & HP & HC & Htp & Htc & Hpc & Hcc).
           rewrite filter_cons.
           destruct tv0 as [d siu sin sdu gin giu cs ps].
           destruct (isChannel channels (xmltv.ID c)) eqn:E; simpl in *.
           ++ destruct (decide (true = true)); [|done].
              rewrite <- app_assoc in HC. repeat split; try done; lia.
           ++ destruct (decide (false = true)); [done|].
              repeat split; try done; lia.
        -- apply IH.
  - apply IH.
Qed.

(** C6: with the retained channel-ID set of the playlist, [loadXMLTv]
    returns a document exactly when every programme and channel element of
    the input decodes; the document then holds, in input order, the
    programmes whose channel reference is in the set and the channels
    whose id is in the set, so a programme of the input is in the output if
    and only if its channel reference is in the set; the totals count the
    elements seen and the kept counts never exceed them. *)
Theorem loadXMLTv_filters (p : Provider) (pl : playlistLoader)
    (toks : list xml.Token) :
  p_playlist p = Some pl ->
  match loadXMLTv p toks with
  | Ok (tv, n) =>
      forallb decodes toks = true
      /\ xmltv.Programmes tv =
         filter (fun P => xmltv.Programme_Channel P ∈ retainedChannelIDs (tracks pl))
           (programmesOf toks)
      /\ xmltv.Channels tv =
         filter (fun c => xmltv.ID c ∈ retainedChannelIDs (tracks pl))
           (channelElementsOf toks)
      /\ (forall P, P ∈ xmltv.Programmes tv
                    <-> P ∈ programmesOf toks
                        /\ xmltv.Programme_Channel P
                             ∈ retainedChannelIDs (tracks pl))
      /\ totalProgrammeCount n = Z.of_nat (length (programmesOf toks))
      /\ totalChannelCount n = Z.of_nat (length (channelElementsOf toks))
      /\ programmeCount n = Z.of_nat (length (xmltv.Programmes tv))
      /\ channelCount n = Z.of_nat (length (xmltv.Channels tv))
      /\ programmeCount n <= totalProgrammeCount n
      /\ channelCount n <= totalChannelCount n
  | _ => forallb decodes toks = false
  end.
Proof.
  intros Hpl. unfold loadXMLTv. rewrite Hpl.
  pose proof (loadXMLTv_loop_spec (channelsOf (tracks pl) ∅) toks xmltv.empty 0 0)
    as Hloop.
  destruct (loadXMLTv_loop _ _ _ _ _) as [[tv n]| |]; try done.
  destruct Hloop as (Hd & HP & HC & Htp & Htc & Hpc & Hcc). simpl in HP, HC.
  assert (xmltv.Programmes tv =
          filter (fun P => xmltv.Programme_Channel P
                           ∈ retainedChannelIDs (tracks pl))
            (programmesOf toks)) as HP'.
  { rewrite HP. apply list_filter_iff. intros P. apply isChannel_retained. }
  assert (xmltv.Channels tv =
          filter (fun c => xmltv.ID c ∈ retainedChannelIDs (tracks pl))
            (channelElementsOf toks)) as HC'.
  { rewrite HC. apply list_filter_iff. intros c. apply isChannel_retained. }
  split; [done|]. split; [done|]. split; [done|]. split.
  { intros P. rewrite HP', list_elem_of_filter. tauto. }
  split; [lia|]. split; [lia|]. split; [done|]. split; [done|]. split.
  - rewrite Hpc, Htp, HP'.
    pose proof (length_filter
                  (fun P => xmltv.Programme_Channel P
                            ∈ retainedChannelIDs (tracks pl))
                  (programmesOf toks)). lia.
  - rewrite Hcc, Htc, HC'.
    pose proof (length_filter
                  (fun c => xmltv.ID c ∈ retainedChannelIDs (tracks pl))
                  (channelElementsOf toks)). lia.
Qed.

Lemma loadXMLTv_filters_witness :
  (exists tv n, loadXMLTv (provider_of hd_loader) guide = Ok (tv, n)
                /\ length (xmltv.Programmes tv) = 1%nat
                /\ totalProgrammeCount n = 2)
  /\ loadXMLTv (provider_of hd_loader) broken_guide = Err ErrDecodeElement
  /\ forallb decodes broken_guide = false.
Proof.
  split; [do 2 eexists; repeat split; vm_compute; reflexivity|].
  split; [vm_compute; reflexivity|].
  pose proof (loadXMLTv_filters (provider_of hd_loader) hd_loader broken_guide
                eq_refl) as H.
  destruct (loadXMLTv (provider_of hd_loader) broken_guide) as [[tv n]| |] eqn:E;
    [vm_compute in E; discriminate|exact H|exact H].
Defined.

(** ** A refresh cycle that fails *)

(** C1, as the code has it: a cycle that does not succeed leaves the EPG
    data bytes and the last-refresh timestamp as they were, and the step
    that fails decides the rest.  When the playlist cannot be retrieved or
    parsed, the provider is left unchanged altogether.  When the guide
    cannot be retrieved, only the playlist field is changed: it holds the
    loader of the failed cycle.  When an element of the guide does not
    decode, the playlist field holds that loader and the EPG document is
    nil.  When marshalling fails, the playlist field holds that loader and
    the EPG document is the new one.  The outcome of the call is the error
    (or the panic) of the step that failed. *)
Theorem Refresh_failure (env : Env) (p p' : Provider) (r : result error unit) :
  Refresh env p = (p', r) -> r <> Ok tt ->
  p_epgData p' = p_epgData p
  /\ p_lastRefresh p' = p_lastRefresh p
  /\ match loadPlaylist env p with
     | Err e => p' = p /\ r = Err e
     | Panic msg => p' = p /\ r = Panic msg
     | Ok pl =>
         match loadReader env (p_epgURL p) (p_userAgent p) with
         | Err e => p' = set_playlist p (Some pl) /\ r = Err e
         | Panic msg => p' = set_playlist p (Some pl) /\ r = Panic msg
         | Ok epgReader =>
             match loadXMLTv (set_playlist p (Some pl))
                     (xml_tokens env epgReader) with
             | Err e =>
                 p' = set_epg (set_playlist p (Some pl)) None /\ r = Err e
             | Panic msg => p' = set_playlist p (Some pl) /\ r = Panic msg
             | Ok (tv, _) =>
                 p' = set_epg (set_playlist p (Some pl)) (Some tv)
                 /\ r = match xml_Marshal env tv with
                        | Ok _ => Ok tt
                        | Err e => Err e
                        | Panic msg => Panic msg
                        end
             end
         end
     end.
Proof.
  unfold Refresh, loadPlaylist. intros Hr Hne.
  destruct (loadReader env (p_iptvURL p) (p_userAgent p)) as [reader|e|m];
    simpl in *.
  2, 3: by simplify_eq.
  destruct (loadM3u env reader _) as [pl|e|m].
  2, 3: by simplify_eq.
  destruct (loadReader env (p_epgURL p) (p_userAgent p)) as [epgReader|e|m].
  2, 3: by simplify_eq.
  destruct (loadXMLTv _ _) as [[tv n]|e|m] eqn:Hx.
  2, 3: by simplify_eq.
  destruct (xml_Marshal env tv) as [xmlData|e|m]; by simplify_eq.
Qed.

Lemma Refresh_failure_witness :
  (Refresh iptv_unreachable serving).1 = serving
  /\ (Refresh epg_unreachable serving).1
     = set_playlist serving (p_playlist (Refresh epg_unreachable serving).1)
  /\ p_epg (Refresh epg_unreachable serving).1 = p_epg serving
  /\ p_epg (Refresh epg_broken serving).1 = None
  /\ p_epgData (Refresh epg_broken serving).1 = p_epgData serving
  /\ p_lastRefresh (Refresh epg_broken serving).1 = p_lastRefresh serving.
Proof.
  destruct (Refresh_failure iptv_unreachable serving
              (Refresh iptv_unreachable serving).1
              (Refresh iptv_unreachable serving).2
              ltac:(by destruct (Refresh iptv_unreachable serving))
              ltac:(vm_compute; discriminate)) as (_ & _ & H1).
  destruct (Refresh_failure epg_unreachable serving
              (Refresh epg_unreachable serving).1
              (Refresh epg_unreachable serving).2
              ltac:(by destruct (Refresh epg_unreachable serving))
              ltac:(vm_compute; discriminate)) as (_ & _ & H2).
  destruct (Refresh_failure epg_broken serving
              (Refresh epg_broken serving).1
              (Refresh epg_broken serving).2
              ltac:(by destruct (Refresh epg_broken serving))
              ltac:(vm_compute; discriminate)) as (Hd & Hl & H3).
  vm_compute in H1. destruct H1 as [H1 _].
  vm_compute in H2. destruct H2 as [H2 _].
  vm_compute in H3. destruct H3 as [H3 _].
  split; [vm_compute; exact H1|]. split; [vm_compute; exact H2|].
  split; [vm_compute; exact (f_equal p_epg H2)|].
  split; [vm_compute; exact (f_equal p_epg H3)|].
  split; [exact Hd|exact Hl].
Defined.

(** C1 fails as stated: when the guide cannot be retrieved the cycle
    returns an error and the provider serves the playlist of the failed
    cycle; when an element of the guide does not decode, the EPG document
    of the provider is nil as well. *)
Lemma failed_Refresh_changes_playlist :
  (exists p' e, Refresh epg_unreachable serving = (p', Err e)
                /\ p' <> serving
                /\ GetM3u p' <> GetM3u serving
                /\ GetTrack p' 1 <> GetTrack serving 1)
  /\ (exists p' e, Refresh epg_broken serving = (p', Err e)
                   /\ GetM3u p' <> GetM3u serving
                   /\ p_epg serving = Some xmltv.empty
                   /\ p_epg p' = None).
Proof.
  split.
  - do 2 eexists. split; [vm_compute; reflexivity|].
    assert (forall p', GetM3u p' <> GetM3u serving -> p' <> serving) as Hne
      by (intros p' H ->; done).
    split; [apply Hne|split]; vm_compute; discriminate.
  - do 2 eexists. split; [vm_compute; reflexivity|].
    repeat split; vm_compute; congruence.
Qed.

(** * More of the reconciler *)

(** ** [findIndexWithID] *)

(** X1: [findIndexWithID] returns [-1] exactly when the track has no id or
    no retained track carries its id; otherwise it returns the index, within
    the list, of the first retained track that carries the id. *)
Theorem findIndexWithID_first (pl : playlistLoader) (track : Track) :
  (tag track "tvg-id" = "" -> findIndexWithID pl track = -1)
  /\ (findIndexWithID pl track = -1 <-> id_unshared pl track)
  /\ (findIndexWithID pl track <> -1 ->
      0 <= findIndexWithID pl track < Z.of_nat (length (tracks pl))
      /\ exists old,
           tracks pl !! Z.to_nat (findIndexWithID pl track) = Some old
           /\ tag old "tvg-id" = tag track "tvg-id"
           /\ tag track "tvg-id" <> ""
           /\ forall (j : nat) (t : Track),
                Z.of_nat j < findIndexWithID pl track ->
                tracks pl !! j = Some t ->
                tag t "tvg-id" <> tag track "tvg-id").
Proof.
  destruct (findIndexWithID_spec pl track)
    as [[Hm1 Hun]|(i & old & Hi & Hold & Hid & Hne & Hbefore)].
  - rewrite Hm1. repeat split; try done.
  - rewrite Hi. split; [by intros ?|]. split.
    + split; [lia|]. intros Hun. exfalso.
      by eapply unshared_not_retained.
    + intros _. split.
      * apply lookup_lt_Some in Hold. lia.
      * exists old. rewrite Nat2Z.id. repeat split; try done.
        intros j t Hj Ht. rewrite Forall_forall in Hbefore.
        apply Hbefore. apply list_elem_of_lookup. exists j.
        rewrite lookup_take_lt by lia. done.
Qed.

(** ** Offering a track again *)

Lemma processTrack_not_better (pl : playlistLoader) (t : Track) (e priority : Z) :
  priorities pl !! Name t = Some e -> e <= priority ->
  processTrack pl t priority = pl.
Proof.
  intros He Hle. unfold processTrack. rewrite He.
  by replace (priority <? e) with false by (symmetry; apply Z.ltb_ge; lia).
Qed.

Lemma processTrack_shared_no_HD (pl : playlistLoader) (t old : Track)
    (k : nat) (priority : Z) :
  tracks pl !! k = Some old ->
  tag old "tvg-id" = tag t "tvg-id" -> tag t "tvg-id" <> "" ->
  strings.Contains (Name t) "HD" = false ->
  processTrack pl t priority = pl.
Proof.
  intros Hk Hid Hne HD.
  destruct (processTrack_cases pl t priority)
    as [Hsame|[(j & o & _ & _ & _ & HD' & _)
             |[(_ & Hun & _)|(e & _ & _ & Hun & _)]]]; try done.
  - congruence.
  - exfalso. by eapply unshared_not_retained.
  - exfalso. by eapply unshared_not_retained.
Qed.

(** What [processTrack] does, with the reason for a discard. *)
Lemma processTrack_outcomes (pl : playlistLoader) (t : Track) (priority : Z) :
  (exists e, priorities pl !! Name t = Some e /\ e <= priority
             /\ processTrack pl t priority = pl)
  \/ (exists (k : nat) (old : Track),
        tracks pl !! k = Some old /\ tag old "tvg-id" = tag t "tvg-id"
        /\ tag t "tvg-id" <> "" /\ strings.Contains (Name t) "HD" = false
        /\ processTrack pl t priority = pl)
  \/ (priorities (processTrack pl t priority) !! Name t = Some priority).
Proof.
  destruct (priorities pl !! Name t) as [e|] eqn:He.
  - destruct (Z.le_gt_cases e priority) as [Hle|Hgt].
    { left. exists e. split; [done|]. split; [done|].
      by eapply processTrack_not_better. }
    right. destruct (findIndexWithID_spec pl t)
      as [[Hm1 Hun]|(k & old & Hk & Hold & Hid & Hne & _)].
    + right. unfold processTrack. rewrite He, Hm1.
      replace (priority <? e) with true by (symmetry; apply Z.ltb_lt; lia).
      simpl. apply lookup_insert_eq.
    + destruct (strings.Contains (Name t) "HD") eqn:HD.
      * right. unfold processTrack. rewrite He, Hk, HD.
        replace (priority <? e) with true by (symmetry; apply Z.ltb_lt; lia).
        replace (Z.of_nat k =? -1) with false
          by (symmetry; apply Z.eqb_neq; lia).
        rewrite Nat2Z.id, Hold. simpl. apply lookup_insert_eq.
      * left. exists k, old. repeat split; try done.
        by eapply processTrack_shared_no_HD.
  - right. destruct (findIndexWithID_spec pl t)
      as [[Hm1 Hun]|(k & old & Hk & Hold & Hid & Hne & _)].
    + right. unfold processTrack. rewrite He, Hm1. simpl.
      apply lookup_insert_eq.
    + destruct (strings.Contains (Name t) "HD") eqn:HD.
      * right. unfold processTrack. rewrite He, Hk, HD.
        replace (Z.of_nat k =? -1) with false
          by (symmetry; apply Z.eqb_neq; lia).
        rewrite Nat2Z.id, Hold. simpl. apply lookup_insert_eq.
      * left. exists k, old. repeat split; try done.
        by eapply processTrack_shared_no_HD.
Qed.

Lemma processTrack_absorb (pl : playlistLoader) (t : Track) (i j : Z) :
  i <= j ->
  processTrack (processTrack pl t i) t j = processTrack pl t i.
Proof.
  intros Hij.
  destruct (processTrack_outcomes pl t i)
    as [(e & He & Hle & ->)|[(k & old & Hk & Hid & Hne & HD & ->)|Hrec]].
  - eapply processTrack_not_better; [done|lia].
  - by eapply processTrack_shared_no_HD.
  - by eapply processTrack_not_better.
Qed.

(** X2: once a track has been offered at priority [i], offering the same
    track again at priorities that are not better, any number of times,
    changes nothing. *)
Theorem processTrack_again (pl : playlistLoader) (t : Track) (i : Z)
    (js : list Z) :
  Forall (fun j => i <= j) js ->
  fold_left (fun s j => processTrack s t j) js (processTrack pl t i)
  = processTrack pl t i.
Proof.
  induction 1 as [|j js Hj _ IH]; simpl; [done|].
  by rewrite processTrack_absorb.
Qed.

Lemma processTrack_again_witness :
  fold_left (fun s j => processTrack s hd_second j) [0; 3; 1]
    (processTrack hd_loader hd_second 0)
  = processTrack hd_loader hd_second 0.
Proof.
  apply (processTrack_again hd_loader hd_second 0 [0; 3; 1]).
  repeat constructor; lia.
Defined.

(** ** [OnTrack] and the filters *)

Lemma OnTrack_filters_absorbed (t : Track) (fs : list Filter) :
  valid_filters fs ->
  forall (pl : playlistLoader) (i k : Z), i <= k ->
    OnTrack_filters (processTrack pl t i) t k fs = Ok (processTrack pl t i).
Proof.
  induction 1 as [|f fs [field Hf] _ IH]; intros pl i k Hik; simpl; [done|].
  rewrite Hf. destruct (len0 _); [apply IH; lia|].
  destruct (regexp_Match f _); [|apply IH; lia].
  rewrite processTrack_absorb by done. apply IH; lia.
Qed.

Lemma OnTrack_filters_first (t : Track) (fs : list Filter) :
  valid_filters fs ->
  forall (pl : playlistLoader) (i : Z),
    OnTrack_filters pl t i fs
    = Ok (match firstMatch fs t i with
          | Some k => processTrack pl t k
          | None => pl
          end).
Proof.
  induction 1 as [|f fs [field Hf] Hfs IH]; intros pl i; simpl; [done|].
  unfold matches. rewrite Hf.
  destruct (len0 (tag t field)); simpl; [apply IH|].
  destruct (regexp_Match f (tag t field)); [|apply IH].
  apply OnTrack_filters_absorbed; [done|lia].
Qed.

Lemma firstMatch_range (t : Track) (fs : list Filter) : forall (i k : Z),
  firstMatch fs t i = Some k -> i <= k < i + Z.of_nat (length fs).
Proof.
  induction fs as [|f fs IH]; intros i k; simpl; [done|].
  destruct (matches f t).
  - intros [= <-]. lia.
  - intros H. apply IH in H. lia.
Qed.

(** X3: with valid filter types, [OnTrack] offers the track once, at the
    index of the first filter that matches it; the later matching filters
    change nothing, and a track that no filter matches leaves the state as
    it is.  Without filters the track is offered at priority 0. *)
Theorem OnTrack_first_match (pl : playlistLoader) (t : Track) :
  valid_filters (filters pl) ->
  OnTrack pl t
  = Ok (match filters pl with
        | [] => processTrack pl t 0
        | _ :: _ =>
            match firstMatch (filters pl) t 0 with
            | Some k => processTrack pl t k
            | None => pl
            end
        end).
Proof.
  intros Hv. unfold OnTrack. destruct (filters pl) as [|f fs] eqn:E; [done|].
  by apply OnTrack_filters_first.
Qed.

Lemma OnTrack_first_match_witness :
  OnTrack (newPlaylistLoader "" two_filters) b_hd
  = Ok (processTrack (newPlaylistLoader "" two_filters) b_hd 1).
Proof.
  apply (OnTrack_first_match (newPlaylistLoader "" two_filters) b_hd).
  repeat constructor; by eexists.
Defined.

Lemma OnTrack_filters_panics (t : Track) (fs : list Filter) :
  ~ valid_filters fs ->
  forall (pl : playlistLoader) (i : Z),
    OnTrack_filters pl t i fs = Panic "invalid filter type".
Proof.
  induction fs as [|f fs IH]; intros Hinv pl i; simpl.
  - exfalso. apply Hinv. constructor.
  - destruct (filterField (Type_ f)) as [field|] eqn:Hf; [|done].
    assert (~ valid_filters fs) as Hfs.
    { intros Hfs. apply Hinv. constructor; [by eexists|done]. }
    destruct (len0 _); [by apply IH|].
    destruct (regexp_Match f _); by apply IH.
Qed.

(** X4: [OnTrack] returns exactly when every filter has one of the types
    [id], [group], [name]; with a filter of another type anywhere in the
    list it panics, whatever the track and the state of the loader. *)
Theorem OnTrack_panics_iff (pl : playlistLoader) (t : Track) :
  (valid_filters (filters pl) <-> exists pl', OnTrack pl t = Ok pl')
  /\ (~ valid_filters (filters pl) <->
      OnTrack pl t = Panic "invalid filter type").
Proof.
  assert (~ valid_filters (filters pl) ->
          OnTrack pl t = Panic "invalid filter type") as Hpanic.
  { intros Hinv. unfold OnTrack. destruct (filters pl) as [|f fs] eqn:E.
    - exfalso. apply Hinv. constructor.
    - by apply OnTrack_filters_panics. }
  assert (valid_filters (filters pl) -> exists pl', OnTrack pl t = Ok pl')
    as Hok.
  { intros Hv. unfold OnTrack. destruct (filters pl) as [|f fs] eqn:E.
    - by eexists.
    - rewrite OnTrack_filters_first by done. by eexists. }
  assert (Decision (valid_filters (filters pl))) as [Hv|Hinv].
  { unfold valid_filters. apply Forall_dec. intros f.
    destruct (filterField (Type_ f)); [left; by eexists|right; by intros [? ?]]. }
  - split; split.
    + intros _. by apply Hok.
    + by intros _.
    + intros Hinv. by destruct Hinv.
    + intros Hp. destruct (Hok Hv) as [pl' Hpl']. congruence.
  - split; split.
    + intros Hv. by destruct Hinv.
    + intros [pl' Hpl']. rewrite (Hpanic Hinv) in Hpl'. done.
    + intros _. by apply Hpanic.
    + by intros _.
Qed.

(** ** What a run keeps *)

Lemma OnTrack_Ok_valid (pl pl' : playlistLoader) (t : Track) :
  OnTrack pl t = Ok pl' -> valid_filters (filters pl).
Proof.
  intros HOk.
  assert (Decision (valid_filters (filters pl))) as [Hv|Hinv]; [|done|].
  { unfold valid_filters. apply Forall_dec. intros f.
    destruct (filterField (Type_ f)); [left; by eexists|right; by intros [? ?]]. }
  exfalso. revert HOk. unfold OnTrack.
  destruct (filters pl) as [|f fs] eqn:E.
  - destruct Hinv. constructor.
  - by rewrite OnTrack_filters_panics.
Qed.

(** A call of [OnTrack] that returns is no step or one [processTrack] at
    the index of a filter. *)
Lemma OnTrack_Ok_step (pl pl' : playlistLoader) (t : Track) :
  OnTrack pl t = Ok pl' ->
  pl' = pl
  \/ exists k, 0 <= k < Z.max 1 (Z.of_nat (length (filters pl)))
               /\ pl' = processTrack pl t k.
Proof.
  intros HOk. pose proof (OnTrack_Ok_valid _ _ _ HOk) as Hv.
  revert HOk. unfold OnTrack. destruct (filters pl) as [|f fs] eqn:E.
  - intros [= <-]. right. exists 0. simpl. split; [lia|done].
  - rewrite OnTrack_filters_first by done.
    destruct (firstMatch (f :: fs) t 0) as [k|] eqn:Hk; intros [= <-].
    + right. exists k. split; [|done].
      apply firstMatch_range in Hk. lia.
    + by left.
Qed.

Lemma OnTracks_invariant (I : playlistLoader -> Prop) :
  (forall pl t k, 0 <= k < Z.max 1 (Z.of_nat (length (filters pl))) ->
                  I pl -> I (processTrack pl t k)) ->
  forall (ts : list Track) (pl pl' : playlistLoader),
    OnTracks pl ts = Ok pl' -> I pl -> I pl'.
Proof.
  intros Hstep. induction ts as [|t ts IH]; intros pl pl'; simpl.
  - by intros [= <-].
  - destruct (OnTrack pl t) as [pl1| |] eqn:E; simpl; try done.
    intros Hrun HI. apply (IH pl1 pl' Hrun).
    destruct (OnTrack_Ok_step _ _ _ E) as [->|(k & Hk & ->)]; [done|].
    by apply Hstep.
Qed.

Lemma processTrack_growth (pl : playlistLoader) (t : Track) (priority : Z) :
  baseAddress (processTrack pl t priority) = baseAddress pl
  /\ m3u (processTrack pl t priority) = m3u pl
  /\ (length (tracks pl) <= length (tracks (processTrack pl t priority))
      <= S (length (tracks pl)))%nat
  /\ (forall u, u ∈ tracks (processTrack pl t priority) ->
                u ∈ tracks pl \/ u = t).
Proof.
  destruct (processTrack_cases pl t priority)
    as [->|[(i & old & Hi & _ & _ & _ & _ & ->)
           |[(_ & _ & ->)|(e & _ & _ & _ & ->)]]]; simpl.
  - repeat split; auto; lia.
  - rewrite length_insert. repeat split; auto; try lia.
    intros u [j Hj]%list_elem_of_lookup.
    apply list_lookup_insert_Some in Hj as [(_ & <- & _)|[_ Hj]]; [by right|].
    left. by eapply list_elem_of_lookup_2.
  - rewrite length_app. simpl. repeat split; auto; try lia.
    intros u Hu.
    apply elem_of_app in Hu as [? | ->%list_elem_of_singleton]; auto.
  - repeat split; auto; lia.
Qed.

(** X5: a call of [OnTrack] that returns leaves the base address, the
    filters and the playlist text alone; the retained list keeps its
    length or grows by one entry, and each of its entries is an entry it
    had before or the track of the call. *)
Theorem OnTrack_growth (pl pl' : playlistLoader) (t : Track) :
  OnTrack pl t = Ok pl' ->
  baseAddress pl' = baseAddress pl /\ filters pl' = filters pl
  /\ m3u pl' = m3u pl
  /\ (length (tracks pl) <= length (tracks pl') <= S (length (tracks pl)))%nat
  /\ (forall u, u ∈ tracks pl' -> u ∈ tracks pl \/ u = t).
Proof.
  intros HOk.
  destruct (OnTrack_Ok_step _ _ _ HOk) as [->|(k & _ & ->)].
  - repeat split; auto; lia.
  - destruct (processTrack_growth pl t k) as (Hb & Hm & Hl & Hin).
    repeat split; try done; try lia. apply processTrack_filters.
Qed.

Lemma OnTrack_growth_witness :
  exists s1,
    OnTrack (newPlaylistLoader "" two_filters) a_first = Ok s1
    /\ filters s1 = two_filters
    /\ (0 <= length (tracks s1) <= 1)%nat.
Proof.
  eexists. split; [vm_compute; reflexivity|].
  destruct (OnTrack_growth (newPlaylistLoader "" two_filters)
              (processTrack (newPlaylistLoader "" two_filters) a_first 0)
              a_first ltac:(vm_compute; reflexivity))
    as (_ & Hf & _ & Hl & _).
  split; [exact Hf|exact Hl].
Defined.

Lemma OnTracks_growth (ts : list Track) : forall pl pl' : playlistLoader,
  OnTracks pl ts = Ok pl' ->
  baseAddress pl' = baseAddress pl /\ filters pl' = filters pl
  /\ m3u pl' = m3u pl
  /\ (length (tracks pl') <= length (tracks pl) + length ts)%nat
  /\ (forall u, u ∈ tracks pl' -> u ∈ tracks pl \/ u ∈ ts).
Proof.
  induction ts as [|t ts IH]; intros pl pl'; simpl.
  - intros [= <-]. repeat split; auto; lia.
  - destruct (OnTrack pl t) as [pl1| |] eqn:E; simpl; try done.
    intros Hrun. destruct (IH _ _ Hrun) as (Hb & Hf & Hm & Hl & Hin).
    assert (baseAddress pl1 = baseAddress pl /\ filters pl1 = filters pl
            /\ m3u pl1 = m3u pl
            /\ (length (tracks pl1) <= S (length (tracks pl)))%nat
            /\ (forall u, u ∈ tracks pl1 -> u ∈ tracks pl \/ u = t))
      as (Hb1 & Hf1 & Hm1 & Hl1 & Hin1).
    { destruct (OnTrack_Ok_step _ _ _ E) as [->|(k & _ & ->)].
      - repeat split; auto.
      - destruct (processTrack_growth pl t k) as (? & ? & ? & ?).
        repeat split; try done; try lia. apply processTrack_filters. }
    repeat split; try congruence; try lia.
    intros u Hu. destruct (Hin u Hu) as [Hu1|Hu1].
    + destruct (Hin1 u Hu1) as [? | ->]; [by left|right; by left].
    + right; by right.
Qed.

(** X6: a run never makes up a track and never retains more tracks than
    it was given: every entry of the final list is one of the input
    tracks, and the final list is no longer than the input. *)
Theorem reconcile_subset (base : string) (fs : list Filter)
    (ts : list Track) (pl : playlistLoader) :
  reconcile base fs ts = Ok pl ->
  (forall u, u ∈ tracks pl -> u ∈ ts)
  /\ (length (tracks pl) <= length ts)%nat.
Proof.
  unfold reconcile.
  destruct (OnTracks _ ts) as [pl1| |] eqn:E; simpl; try done.
  intros [= <-]. simpl.
  destruct (OnTracks_growth _ _ _ E) as (_ & _ & _ & Hl & Hin). simpl in *.
  split.
  - intros u Hu. rewrite SliceStable_perm in Hu.
    destruct (Hin u Hu) as [Hnil|?]; [|done]. by apply elem_of_nil in Hnil.
  - by rewrite SliceStable_perm.
Qed.

Lemma reconcile_subset_witness :
  exists pl, reconcile "" [prefixFilter "ESPN"] espn_tracks = Ok pl
             /\ (length (tracks pl) <= length espn_tracks)%nat.
Proof.
  eexists. split; [vm_compute; reflexivity|].
  apply (reconcile_subset "" [prefixFilter "ESPN"] espn_tracks).
  vm_compute; reflexivity.
Defined.

(** X7: all through a run every name with a recorded priority is the name
    of a retained track. *)
Theorem reconcile_recorded_names (base : string) (fs : list Filter)
    (ts : list Track) (pl : playlistLoader) :
  reconcile base fs ts = Ok pl ->
  forall name v, priorities pl !! name = Some v ->
                 exists t, t ∈ tracks pl /\ Name t = name.
Proof.
  unfold reconcile.
  destruct (OnTracks _ ts) as [pl1| |] eqn:E; simpl; try done.
  intros [= <-]. simpl.
  assert (forall name, is_Some (priorities pl1 !! name) ->
                       exists i t, tracks pl1 !! i = Some t /\ Name t = name)
    as Hinv.
  { eapply (OnTracks_invariant
              (fun q => forall name, is_Some (priorities q !! name) ->
                          exists i t, tracks q !! i = Some t /\ Name t = name));
      [|exact E|].
    - clear. intros pl t k _ HD.
      destruct (processTrack_cases pl t k)
        as [->|[(i & old & Hi & _ & _ & _ & _ & ->)
               |[(_ & _ & ->)|(e & He & _ & _ & ->)]]]; simpl; try done.
      + intros name [v [[<- _]|[_ [Hne Hv]%lookup_delete_Some]]%lookup_insert_Some].
        * exists i, t. split; [|done].
          apply list_lookup_insert_eq. by eapply lookup_lt_Some.
        * destruct (HD name ltac:(by exists v)) as (j & tj & Hj & <-).
          exists j, tj. split; [|done].
          rewrite list_lookup_insert_ne; [done|]. intros <-. simplify_eq.
      + intros name [v [[<- _]|[_ Hv]]%lookup_insert_Some].
        * exists (length (tracks pl)), t. split; [|done].
          apply lookup_snoc_Some. by right.
        * destruct (HD name ltac:(by exists v)) as (j & tj & Hj & <-).
          exists j, tj. split; [|done]. apply lookup_app_Some. by left.
      + intros name [v [[<- _]|[_ Hv]]%lookup_insert_Some].
        * apply HD. by exists e.
        * apply HD. by exists v.
    - simpl. intros name [v Hv]. done. }
  intros name v Hv. destruct (Hinv name ltac:(by exists v)) as (i & t & Hi & <-).
  exists t. split; [|done]. rewrite SliceStable_perm.
  by eapply list_elem_of_lookup_2.
Qed.

Lemma reconcile_recorded_names_witness :
  exists pl, reconcile "" [prefixFilter "ESPN"] espn_tracks = Ok pl
             /\ forall name v, priorities pl !! name = Some v ->
                               exists t, t ∈ tracks pl /\ Name t = name.
Proof.
  eexists. split; [vm_compute; reflexivity|].
  apply (reconcile_recorded_names "" [prefixFilter "ESPN"] espn_tracks).
  vm_compute; reflexivity.
Defined.

(** X8: every recorded priority is the index of a filter of the list: it
    is 0 when there are no filters, and otherwise at least 0 and less than
    the number of filters. *)
Theorem reconcile_priority_range (base : string) (fs : list Filter)
    (ts : list Track) (pl : playlistLoader) :
  reconcile base fs ts = Ok pl ->
  forall name v, priorities pl !! name = Some v ->
                 0 <= v < Z.max 1 (Z.of_nat (length fs)).
Proof.
  unfold reconcile.
  destruct (OnTracks _ ts) as [pl1| |] eqn:E; simpl; try done.
  intros [= <-]. simpl.
  assert (filters pl1 = fs
          /\ forall name v, priorities pl1 !! name = Some v ->
                            0 <= v < Z.max 1 (Z.of_nat (length fs)))
    as [_ Hinv]; [|done].
  eapply (OnTracks_invariant
            (fun q => filters q = fs
                      /\ forall name v, priorities q !! name = Some v ->
                            0 <= v < Z.max 1 (Z.of_nat (length fs))));
    [|exact E|].
  - clear. intros pl t k Hk [Hfs HD]. rewrite Hfs in Hk.
    split; [by rewrite processTrack_filters|].
    destruct (processTrack_cases pl t k)
      as [->|[(i & old & Hi & _ & _ & _ & _ & ->)
             |[(_ & _ & ->)|(e & He & _ & _ & ->)]]]; simpl; try done.
    + intros name v [[_ <-]|[_ [_ Hv]%lookup_delete_Some]]%lookup_insert_Some;
        eauto.
    + intros name v [[_ <-]|[_ Hv]]%lookup_insert_Some; eauto.
    + intros name v [[_ <-]|[_ Hv]]%lookup_insert_Some; eauto.
  - simpl. split; [done|]. intros name v Hv. done.
Qed.

Lemma reconcile_priority_range_witness :
  exists pl, reconcile "" two_filters [a_first; b_hd; a_again] = Ok pl
             /\ forall name v, priorities pl !! name = Some v -> 0 <= v < 2.
Proof.
  eexists. split; [vm_compute; reflexivity|].
  apply (reconcile_priority_range "" two_filters [a_first; b_hd; a_again]).
  vm_compute; reflexivity.
Defined.

Lemma processTrack_position (pl : playlistLoader) (t old : Track)
    (priority : Z) (k : nat) :
  tracks pl !! k = Some old ->
  tracks (processTrack pl t priority) !! k = Some old
  \/ (tracks (processTrack pl t priority) !! k = Some t
      /\ tag t "tvg-id" = tag old "tvg-id" /\ tag t "tvg-id" <> ""
      /\ strings.Contains (Name t) "HD" = true).
Proof.
  intros Hk.
  destruct (processTrack_cases pl t priority)
    as [->|[(i & o & Hi & Hid & Hne & HD & _ & ->)
           |[(_ & _ & ->)|(e & _ & _ & _ & ->)]]]; simpl; auto.
  - destruct (decide (i = k)) as [->|Hik].
    + right. simplify_eq. split; [|done].
      apply list_lookup_insert_eq. by eapply lookup_lt_Some.
    + left. by rewrite list_lookup_insert_ne.
  - left. apply lookup_app_Some. by left.
Qed.

(** X9: during a run an entry of the retained list keeps its position and
    the position keeps its [tvg-id]: the entry stays as it is or is
    replaced by a track with the same non-empty id whose name contains
    [HD].  An entry without id is never replaced. *)
Theorem OnTracks_position (ts : list Track) (pl pl' : playlistLoader)
    (k : nat) (old : Track) :
  OnTracks pl ts = Ok pl' ->
  tracks pl !! k = Some old ->
  exists new,
    tracks pl' !! k = Some new
    /\ tag new "tvg-id" = tag old "tvg-id"
    /\ (new = old \/ strings.Contains (Name new) "HD" = true)
    /\ (tag old "tvg-id" = "" -> new = old).
Proof.
  intros Hrun Hk.
  assert (exists new,
            tracks pl' !! k = Some new
            /\ tag new "tvg-id" = tag old "tvg-id"
            /\ (new = old
                \/ (strings.Contains (Name new) "HD" = true
                    /\ tag old "tvg-id" <> ""))) as (new & Hn & Hid & Hor).
  { eapply (OnTracks_invariant
              (fun q => exists new,
                          tracks q !! k = Some new
                          /\ tag new "tvg-id" = tag old "tvg-id"
                          /\ (new = old
                              \/ (strings.Contains (Name new) "HD" = true
                                  /\ tag old "tvg-id" <> ""))));
      [|exact Hrun|by exists old; auto].
    clear. intros pl t p _ (cur & Hcur & Hid & Hor).
    destruct (processTrack_position pl t cur p k Hcur)
      as [Hk|(Hk & Htid & Hne & HD)].
    - by exists cur.
    - exists t. repeat split; [done|congruence|].
      right. split; [done|congruence]. }
  exists new. repeat split; try done.
  - destruct Hor as [?|[? _]]; auto.
  - intros Hempty. by destruct Hor as [?|[_ ?]].
Qed.

Lemma OnTracks_position_witness :
  exists new,
    tracks (processTrack (newPlaylistLoader "" two_filters) b_hd 1) !! 0%nat
    = Some new
    /\ tag new "tvg-id" = tag a_first "tvg-id"
    /\ (new = a_first \/ strings.Contains (Name new) "HD" = true)
    /\ (tag a_first "tvg-id" = "" -> new = a_first).
Proof.
  apply (OnTracks_position [b_hd]
           (processTrack (newPlaylistLoader "" two_filters) a_first 0)
           (processTrack (newPlaylistLoader "" two_filters) b_hd 1)
           0 a_first).
  - vm_compute. reflexivity.
  - reflexivity.
Defined.

(** ** The playlist text *)

Lemma append_assoc (a b c : string) : (a +:+ b) +:+ c = a +:+ (b +:+ c).
Proof.
  induction a as [|x a IH]; [done|].
  change (String x ((a +:+ b) +:+ c) = String x (a +:+ (b +:+ c))).
  by rewrite IH.
Qed.

Lemma render_cons (base : string) (i : Z) (t : Track) (ts : list Track) :
  render base i (t :: ts) = entry base i t +:+ render base (i + 1) ts.
Proof. unfold entry. rewrite !append_assoc. reflexivity. Qed.

Lemma render_app (base : string) (l1 : list Track) : forall (i : Z) (l2 : list Track),
  render base i (l1 ++ l2)
  = render base i l1 +:+ render base (i + Z.of_nat (length l1)) l2.
Proof.
  induction l1 as [|t l1 IH]; intros i l2.
  - simpl. by rewrite Z.add_0_r.
  - rewrite <- app_comm_cons, !render_cons, IH, append_assoc.
    do 3 f_equal. simpl length. lia.
Qed.

(** X10: a run that returns hands on the base address and the filters it
    was given, and its playlist text is the header line followed by the
    rendering of the final list from position 0. *)
Theorem reconcile_m3u (base : string) (fs : list Filter) (ts : list Track)
    (pl : playlistLoader) :
  reconcile base fs ts = Ok pl ->
  baseAddress pl = base /\ filters pl = fs
  /\ m3u pl = "#EXTM3U" +:+ String "010" "" +:+ render base 0 (tracks pl).
Proof.
  unfold reconcile.
  destruct (OnTracks _ ts) as [pl1| |] eqn:E; simpl; try done.
  intros [= <-]. simpl.
  destruct (OnTracks_growth _ _ _ E) as (Hb & Hf & Hm & _). simpl in *.
  by rewrite Hb, Hf, Hm.
Qed.

Lemma reconcile_m3u_witness :
  exists pl, reconcile "" [prefixFilter "ESPN"] espn_tracks = Ok pl
             /\ m3u pl = "#EXTM3U" +:+ String "010" ""
                         +:+ render "" 0 (tracks pl).
Proof.
  eexists. split; [vm_compute; reflexivity|].
  apply (reconcile_m3u "" [prefixFilter "ESPN"] espn_tracks).
  vm_compute; reflexivity.
Defined.

(** X11: the entry [OnPlaylistEnd] writes for the track at position [k] of
    the final list carries, when a base address is set, the channel number
    [k], and [GetTrack] returns that track for the index [k]: the text is
    what was there before, the entries of the positions before [k], the
    entry of the track with the number [k], and the entries of the
    positions behind it. *)
Theorem playlist_entry_index (p : Provider) (pl : playlistLoader)
    (k : nat) (t : Track) :
  p_playlist p = Some (OnPlaylistEnd pl) ->
  tracks (OnPlaylistEnd pl) !! k = Some t ->
  GetTrack p (Z.of_nat k) = Ok t
  /\ m3u (OnPlaylistEnd pl)
     = m3u pl
       +:+ render (baseAddress pl) 0 (take k (tracks (OnPlaylistEnd pl)))
       +:+ entry (baseAddress pl) (Z.of_nat k) t
       +:+ render (baseAddress pl) (Z.of_nat k + 1)
             (drop (S k) (tracks (OnPlaylistEnd pl))).
Proof.
  intros Hp Hk. split.
  - unfold GetTrack. rewrite Hp.
    pose proof (lookup_lt_Some _ _ _ Hk) as Hlt.
    replace (Z.of_nat k >=? _) with false
      by (symmetry; rewrite Z.geb_leb; apply Z.leb_gt; lia).
    replace (Z.of_nat k <? 0) with false by (symmetry; apply Z.ltb_ge; lia).
    by rewrite Nat2Z.id, Hk.
  - set (sorted := tracks (OnPlaylistEnd pl)) in *.
    change (m3u (OnPlaylistEnd pl))
      with (m3u pl +:+ render (baseAddress pl) 0 sorted).
    rewrite <- (take_drop_middle sorted k t Hk) at 1.
    rewrite render_app, render_cons. simpl Z.add.
    rewrite length_take_le by (apply lookup_lt_Some in Hk; lia).
    done.
Qed.

Lemma playlist_entry_index_witness :
  GetTrack (provider_of (OnPlaylistEnd mixed_loader)) 3
  = Ok (track "U1" "1" "" "http://a/1").
Proof.
  apply (playlist_entry_index (provider_of (OnPlaylistEnd mixed_loader))
           mixed_loader 3 (track "U1" "1" "" "http://a/1")).
  - reflexivity.
  - vm_compute. reflexivity.
Defined.

(** X12: without a base address the text of the entries does not depend
    on their positions; with a base address it does not depend on the
    stream addresses of the tracks, only on their raw lines and their
    positions. *)
Theorem render_rewrite (base : string) (ts : list Track) :
  (len0 base = true -> forall i j, render base i ts = render base j ts)
  /\ (len0 base = false ->
      forall ts' i, Raw <$> ts = Raw <$> ts' ->
                    render base i ts = render base i ts').
Proof.
  split.
  - intros Hb. induction ts as [|t ts IH]; intros i j; simpl; [done|].
    rewrite Hb. simpl. by rewrite (IH (i + 1) (j + 1)).
  - intros Hb. induction ts as [|t ts IH]; intros [|t' ts'] i Heq;
      try done; simpl in *.
    injection Heq as Hraw Hrest. rewrite Hb, Hraw. simpl.
    by rewrite (IH ts' (i + 1) Hrest).
Qed.

(** ** Sorting a sorted list *)

Section SortedAgain.
Context {A : Type} (lt : A -> A -> bool) (le : A -> A -> Prop).
Hypothesis le_not_lt : forall x y, le y x -> lt x y = false.

Lemma insertion_of_sorted (l : list A) : forall acc : list A,
  StronglySorted le l ->
  (forall a b, a ∈ acc -> b ∈ l -> le a b) ->
  fold_left (fun r x => sort.insertLeft lt x r) l acc = reverse l ++ acc.
Proof.
  induction l as [|x l IH]; intros acc Hs Hacc; simpl; [done|].
  apply StronglySorted_inv in Hs as [Hs Hx].
  assert (sort.insertLeft lt x acc = x :: acc) as ->.
  { destruct acc as [|y r]; simpl; [done|].
    rewrite le_not_lt; [done|]. apply Hacc; by left. }
  rewrite IH.
  - by rewrite reverse_cons, <- app_assoc.
  - done.
  - intros a b [->|Ha]%elem_of_cons Hb.
    + rewrite Forall_forall in Hx. by apply Hx.
    + apply Hacc; [done|by right].
Qed.

Lemma SliceStable_of_sorted (l : list A) :
  StronglySorted le l -> sort.SliceStable lt l = l.
Proof.
  intros Hs. unfold sort.SliceStable.
  rewrite insertion_of_sorted; [|done|by intros a b Ha%elem_of_nil].
  by rewrite app_nil_r, reverse_involutive.
Qed.

End SortedAgain.

(** X13: the final sort leaves a list it has sorted as it is, but the
    playlist text is not reset by [OnPlaylistEnd]: a second call leaves the
    order of the tracks alone and writes the entries once more behind the
    text of the first call. *)
Theorem OnPlaylistEnd_twice (pl : playlistLoader) :
  tracks (OnPlaylistEnd (OnPlaylistEnd pl)) = tracks (OnPlaylistEnd pl)
  /\ m3u (OnPlaylistEnd (OnPlaylistEnd pl))
     = m3u (OnPlaylistEnd pl)
       +:+ render (baseAddress pl) 0 (tracks (OnPlaylistEnd pl)).
Proof.
  assert (tracks (OnPlaylistEnd (OnPlaylistEnd pl)) = tracks (OnPlaylistEnd pl))
    as Htr.
  { simpl. apply (SliceStable_of_sorted _ (priority_le (priorities pl))).
    - intros x y. unfold priority_le, less.
      destruct (priorities pl !! Name x), (priorities pl !! Name y);
        try done. intros ?. apply Z.ltb_ge. lia.
    - apply SliceStable_sorted;
        eauto using priority_le_trans, less_priority_le, not_less_priority_le. }
  split; [done|].
  change (m3u (OnPlaylistEnd (OnPlaylistEnd pl)))
    with (m3u (OnPlaylistEnd pl)
          +:+ render (baseAddress pl) 0
                (tracks (OnPlaylistEnd (OnPlaylistEnd pl)))).
  by rewrite Htr.
Qed.

(** * More of the EPG filter *)

Lemma loadXMLTv_loop_relevant (channels : gmap string bool)
    (toks : list xml.Token) : forall (tv0 : xmltv.TV) (tc tp : Z),
  loadXMLTv_loop channels (List.filter relevant toks) tv0 tc tp
  = loadXMLTv_loop channels toks tv0 tc tp.
Proof.
  induction toks as [|[[name attrs dp dc]|] toks IH]; intros tv0 tc tp;
    simpl; [done| |apply IH].
  destruct (String.eqb_spec name "tv") as [->|Htv]; simpl; [apply IH|].
  destruct (String.eqb_spec name "programme") as [->|Hp]; simpl.
  { destruct dp; simpl; [apply IH|done..]. }
  destruct (String.eqb_spec name "channel") as [->|Hc]; simpl.
  { destruct dc; simpl; [apply IH|done..]. }
  destruct (String.eqb_spec name "tv"); [done|].
  destruct (String.eqb_spec name "programme"); [done|].
  destruct (String.eqb_spec name "channel"); [done|].
  apply IH.
Qed.

(** X14: the result of [loadXMLTv] depends only on the start elements
    named [tv], [programme] and [channel]: dropping every other token from
    the stream changes neither the document, nor the counters, nor the
    error. *)
Theorem loadXMLTv_relevant (p : Provider) (toks : list xml.Token) :
  loadXMLTv p (List.filter relevant toks) = loadXMLTv p toks.
Proof.
  unfold loadXMLTv. destruct (p_playlist p); [|done].
  apply loadXMLTv_loop_relevant.
Qed.

Lemma loadXMLTv_loop_prefix (channels : gmap string bool)
    (pre rest : list xml.Token) : forall (tv0 : xmltv.TV) (tc tp : Z),
  forallb decodes pre = true ->
  exists tv1 tc1 tp1,
    loadXMLTv_loop channels (pre ++ rest) tv0 tc tp
    = loadXMLTv_loop channels rest tv1 tc1 tp1.
Proof.
  induction pre as [|[[name attrs dp dc]|] pre IH]; intros tv0 tc tp; simpl.
  - intros _. by exists tv0, tc, tp.
  - destruct (String.eqb_spec name "tv") as [->|Htv]; simpl; [apply IH|].
    destruct (String.eqb_spec name "programme") as [->|Hp]; simpl.
    { destruct dp; simpl; [apply IH|done..]. }
    destruct (String.eqb_spec name "channel") as [->|Hc]; simpl.
    { destruct dc; simpl; [apply IH|done..]. }
    apply IH.
  - apply IH.
Qed.

(** X15: the first [programme] or [channel] element that does not decode
    ends the filtering with its error, whatever was kept before it and
    whatever follows. *)
Theorem loadXMLTv_first_error (p : Provider) (pl : playlistLoader)
    (pre post : list xml.Token) (se : xml.StartElement) (e : error) :
  p_playlist p = Some pl ->
  forallb decodes pre = true ->
  (xml.Local se = "programme" /\ xml.DecodeProgramme se = Err e)
  \/ (xml.Local se = "channel" /\ xml.DecodeChannel se = Err e) ->
  loadXMLTv p (pre ++ xml.Start se :: post) = Err e.
Proof.
  intros Hp Hpre Hse. unfold loadXMLTv. rewrite Hp.
  destruct (loadXMLTv_loop_prefix (channelsOf (tracks pl) ∅) pre
              (xml.Start se :: post) xmltv.empty 0 0 Hpre)
    as (tv1 & tc1 & tp1 & ->).
  destruct se as [name attrs dp dc]. simpl in *.
  destruct Hse as [[-> ->]|[-> ->]]; done.
Qed.

Lemma loadXMLTv_first_error_witness :
  loadXMLTv (provider_of hd_loader) broken_guide = Err ErrDecodeElement.
Proof.
  apply (loadXMLTv_first_error (provider_of hd_loader) hd_loader guide []).
  - reflexivity.
  - reflexivity.
  - left. split; reflexivity.
Defined.

Lemma loadXMLTv_loop_ext (c1 c2 : gmap string bool) (toks : list xml.Token) :
  (forall key, isChannel c1 key = isChannel c2 key) ->
  forall (tv0 : xmltv.TV) (tc tp : Z),
    loadXMLTv_loop c1 toks tv0 tc tp = loadXMLTv_loop c2 toks tv0 tc tp.
Proof.
  intros Hext.
  induction toks as [|[[name attrs dp dc]|] toks IH]; intros tv0 tc tp;
    simpl; [done| |apply IH].
  destruct (String.eqb name "tv"); [apply IH|].
  destruct (String.eqb name "programme").
  { destruct dp; simpl; [|done..]. rewrite Hext. apply IH. }
  destruct (String.eqb name "channel").
  { destruct dc; simpl; [|done..]. rewrite Hext. apply IH. }
  apply IH.
Qed.

(** X16: [loadXMLTv] uses the playlist only through the set of its
    non-empty ids: two playlists with the same set give the same result on
    every stream, whatever the order, the names and the number of their
    tracks. *)
Theorem loadXMLTv_ids_only (p1 p2 : Provider) (pl1 pl2 : playlistLoader)
    (toks : list xml.Token) :
  p_playlist p1 = Some pl1 -> p_playlist p2 = Some pl2 ->
  retainedChannelIDs (tracks pl1) = retainedChannelIDs (tracks pl2) ->
  loadXMLTv p1 toks = loadXMLTv p2 toks.
Proof.
  intros H1 H2 Hids. unfold loadXMLTv. rewrite H1, H2.
  apply loadXMLTv_loop_ext. intros key.
  pose proof (isChannel_retained (tracks pl1) key) as Hk1.
  pose proof (isChannel_retained (tracks pl2) key) as Hk2.
  rewrite Hids in Hk1.
  destruct (isChannel (channelsOf (tracks pl1) ∅) key),
           (isChannel (channelsOf (tracks pl2) ∅) key); try done.
  - symmetry. apply Hk2, Hk1. done.
  - apply Hk1, Hk2. done.
Qed.

Lemma loadXMLTv_ids_only_witness :
  loadXMLTv (provider_of hd_loader) guide
  = loadXMLTv (provider_of sd_loader) guide.
Proof.
  apply (loadXMLTv_ids_only (provider_of hd_loader) (provider_of sd_loader)
           hd_loader sd_loader guide); reflexivity.
Defined.

Lemma retainedChannelIDs_nonempty (ts : list Track) :
  "" ∉ retainedChannelIDs ts.
Proof.
  unfold retainedChannelIDs. rewrite elem_of_list_to_set.
  by intros [? _]%list_elem_of_filter.
Qed.

Lemma retainedChannelIDs_no_ids (ts : list Track) :
  Forall (fun t => tag t "tvg-id" = "") ts -> retainedChannelIDs ts = ∅.
Proof.
  unfold retainedChannelIDs.
  induction 1 as [|t ts Ht _ IH]; [done|].
  rewrite fmap_cons, filter_cons_False; [done|]. by intros ?.
Qed.

(** X17: an element with an empty channel reference or id is never kept,
    and a playlist none of whose tracks has a [tvg-id] yields a document
    without channels and programmes. *)
Theorem loadXMLTv_empty_ids (p : Provider) (pl : playlistLoader)
    (toks : list xml.Token) (tv : xmltv.TV) (n : xmltvCounts) :
  p_playlist p = Some pl ->
  loadXMLTv p toks = Ok (tv, n) ->
  (forall P, P ∈ xmltv.Programmes tv -> xmltv.Programme_Channel P <> "")
  /\ (forall c, c ∈ xmltv.Channels tv -> xmltv.ID c <> "")
  /\ (Forall (fun t => tag t "tvg-id" = "") (tracks pl) ->
      xmltv.Programmes tv = [] /\ xmltv.Channels tv = []
      /\ programmeCount n = 0 /\ channelCount n = 0).
Proof.
  intros Hp HOk. unfold loadXMLTv in HOk. rewrite Hp in HOk.
  pose proof (loadXMLTv_loop_spec (channelsOf (tracks pl) ∅) toks xmltv.empty 0 0)
    as Hloop.
  rewrite HOk in Hloop.
  destruct Hloop as (_ & HP & HC & _ & _ & Hpc & Hcc). simpl in HP, HC.
  assert (forall P, P ∈ xmltv.Programmes tv ->
                    xmltv.Programme_Channel P ∈ retainedChannelIDs (tracks pl))
    as HPin.
  { intros P. rewrite HP. intros [Hk _]%list_elem_of_filter.
    by apply isChannel_retained. }
  assert (forall c, c ∈ xmltv.Channels tv ->
                    xmltv.ID c ∈ retainedChannelIDs (tracks pl)) as HCin.
  { intros c. rewrite HC. intros [Hk _]%list_elem_of_filter.
    by apply isChannel_retained. }
  split; [|split].
  - intros P HPm Hempty. apply HPin in HPm. rewrite Hempty in HPm.
    by apply retainedChannelIDs_nonempty in HPm.
  - intros c HCm Hempty. apply HCin in HCm. rewrite Hempty in HCm.
    by apply retainedChannelIDs_nonempty in HCm.
  - intros Hnone. apply retainedChannelIDs_no_ids in Hnone.
    assert (xmltv.Programmes tv = []) as HPnil.
    { destruct (xmltv.Programmes tv) as [|P ps]; [done|].
      specialize (HPin P ltac:(by left)). rewrite Hnone in HPin.
      by apply elem_of_empty in HPin. }
    assert (xmltv.Channels tv = []) as HCnil.
    { destruct (xmltv.Channels tv) as [|c cs]; [done|].
      specialize (HCin c ltac:(by left)). rewrite Hnone in HCin.
      by apply elem_of_empty in HCin. }
    rewrite Hpc, Hcc, HPnil, HCnil. done.
Qed.

Lemma loadXMLTv_empty_ids_witness :
  (exists tv n,
     loadXMLTv (provider_of idless_loader) guide_empty_refs = Ok (tv, n)
     /\ xmltv.Programmes tv = [] /\ xmltv.Channels tv = []
     /\ totalProgrammeCount n = 2 /\ programmeCount n = 0)
  /\ (exists tv n,
        loadXMLTv (provider_of half_idless_loader) guide_empty_refs
        = Ok (tv, n)
        /\ length (xmltv.Programmes tv) = 1%nat
        /\ length (xmltv.Channels tv) = 1%nat
        /\ (forall P, P ∈ xmltv.Programmes tv ->
                      xmltv.Programme_Channel P <> "")
        /\ (forall c, c ∈ xmltv.Channels tv -> xmltv.ID c <> "")).
Proof.
  split.
  - do 2 eexists. split; [vm_compute; reflexivity|].
    destruct (loadXMLTv_empty_ids (provider_of idless_loader) idless_loader
                guide_empty_refs _ _ eq_refl ltac:(vm_compute; reflexivity))
      as (_ & _ & H).
    destruct (H ltac:(repeat constructor)) as (HP & HC & _ & Hpc).
    split; [exact HP|]. split; [exact HC|]. split; [reflexivity|exact Hpc].
  - do 2 eexists. split; [vm_compute; reflexivity|].
    destruct (loadXMLTv_empty_ids (provider_of half_idless_loader)
                half_idless_loader guide_empty_refs _ _ eq_refl
                ltac:(vm_compute; reflexivity)) as (HP & HC & _).
    split; [reflexivity|]. split; [reflexivity|].
    split; [exact HP|exact HC].
Defined.

Lemma header_setAttr (tv1 tv2 : xmltv.TV) (attr : string * string) :
  header tv1 = header tv2 -> header (setAttr tv1 attr) = header (setAttr tv2 attr).
Proof.
  destruct tv1, tv2, attr as [name value]. unfold header, setAttr. simpl.
  intros [= -> -> -> -> -> ->].
  repeat (match goal with |- context [if ?b then _ else _] => destruct b end);
    done.
Qed.

Lemma header_setAttrs (attrs : list (string * string)) :
  forall tv1 tv2 : xmltv.TV,
    header tv1 = header tv2 ->
    header (fold_left setAttr attrs tv1) = header (fold_left setAttr attrs tv2).
Proof.
  induction attrs as [|a attrs IH]; intros tv1 tv2 H; simpl; [done|].
  by apply IH, header_setAttr.
Qed.

Lemma loadXMLTv_loop_header (channels : gmap string bool)
    (toks : list xml.Token) : forall (tv0 : xmltv.TV) (tc tp : Z)
      (tv : xmltv.TV) (n : xmltvCounts),
  loadXMLTv_loop channels toks tv0 tc tp = Ok (tv, n) ->
  header tv = header (fold_left setAttr (tvAttrs toks) tv0).
Proof.
  induction toks as [|[[name attrs dp dc]|] toks IH]; intros tv0 tc tp tv n;
    simpl.
  - by intros [= <- _].
  - destruct (String.eqb_spec name "tv") as [->|Htv]; simpl.
    { rewrite fold_left_app. apply IH. }
    destruct (String.eqb_spec name "programme") as [->|Hp]; simpl.
    { destruct dp as [P| |]; simpl; [|done..].
      intros H. apply IH in H. rewrite H. apply header_setAttrs.
      destruct tv0. by destruct (isChannel _ _). }
    destruct (String.eqb_spec name "channel") as [->|Hc]; simpl.
    { destruct dc as [c| |]; simpl; [|done..].
      intros H. apply IH in H. rewrite H. apply header_setAttrs.
      destruct tv0. by destruct (isChannel _ _). }
    apply IH.
  - apply IH.
Qed.

(** X18: the six header fields of the returned document are those the
    attributes of the [tv] start elements of the stream set, taken in
    stream order on the empty document: an attribute met later overrides
    an earlier one of the same name, other attributes are ignored, and the
    playlist plays no part. *)
Theorem loadXMLTv_header (p : Provider) (toks : list xml.Token)
    (tv : xmltv.TV) (n : xmltvCounts) :
  loadXMLTv p toks = Ok (tv, n) ->
  header tv = header (fold_left setAttr (tvAttrs toks) xmltv.empty).
Proof.
  unfold loadXMLTv. destruct (p_playlist p); [|done].
  apply loadXMLTv_loop_header.
Qed.

Lemma loadXMLTv_header_witness :
  exists tv n,
    loadXMLTv (provider_of hd_loader) guide = Ok (tv, n)
    /\ header tv = ["20240101"; ""; ""; ""; ""; ""].
Proof.
  do 2 eexists. split; [vm_compute; reflexivity|].
  apply (loadXMLTv_header (provider_of hd_loader) guide _
           {| totalChannelCount := 2; channelCount := 1;
              totalProgrammeCount := 2; programmeCount := 1 |}).
  vm_compute. reflexivity.
Defined.

(** * More of the provider *)

(** X19: [NewProvider] never fails.  The provider it returns carries the
    two locations, the filters and the user agent of the configuration
    (the guard on the user agent changes nothing), a base address only
    when [UseFFMPEG] is set, and no snapshot: until a cycle has parsed a
    playlist, [GetM3u] and [GetTrack] panic on the nil playlist, the EPG
    text is empty and the time of the last refresh is the zero time. *)
Theorem NewProvider_fresh (config : Config) :
  exists p,
    NewProvider config = Ok p
    /\ p_iptvURL p = IPTVUrl config /\ p_epgURL p = EPGUrl config
    /\ p_filters p = Filters config /\ p_userAgent p = UserAgent config
    /\ p_baseAddress p
       = (if UseFFMPEG config then ServerAddress config else "")
    /\ GetM3u p = Panic "nil pointer dereference"
    /\ (forall idx, GetTrack p idx = Panic "nil pointer dereference")
    /\ GetEpgXML p = "" /\ GetLastRefresh p = 0.
Proof.
  unfold NewProvider. eexists. split; [reflexivity|].
  destruct config as [iptv epg fs ua ff addr]. simpl.
  destruct ua, ff; simpl; repeat split; done.
Qed.

Lemma Refresh_config (env : Env) (p : Provider) :
  same_config (Refresh env p).1 p.
Proof.
  unfold Refresh, same_config.
  destruct (loadReader env (p_iptvURL p) (p_userAgent p)); simpl; try done.
  destruct (loadM3u env _ _); simpl; try done.
  destruct (loadReader env (p_epgURL p) (p_userAgent p)); simpl; try done.
  destruct (loadXMLTv _ _) as [[tv n]| |]; simpl; try done.
  destruct (xml_Marshal env tv); simpl; done.
Qed.

(** X20: whatever its outcome, [Refresh] leaves the configuration of the
    provider alone: the two locations, the base address, the user agent
    and the filters. *)
Theorem Refresh_keeps_config (env : Env) (p : Provider) :
  p_iptvURL (Refresh env p).1 = p_iptvURL p
  /\ p_epgURL (Refresh env p).1 = p_epgURL p
  /\ p_baseAddress (Refresh env p).1 = p_baseAddress p
  /\ p_userAgent (Refresh env p).1 = p_userAgent p
  /\ p_filters (Refresh env p).1 = p_filters p.
Proof. apply Refresh_config. Qed.

Lemma Refresh_Ok_inv (env : Env) (p p' : Provider) :
  Refresh env p = (p', Ok tt) ->
  exists pl epgReader tv n xmlData,
    loadPlaylist env p = Ok pl
    /\ loadReader env (p_epgURL p) (p_userAgent p) = Ok epgReader
    /\ loadXMLTv (set_playlist p (Some pl)) (xml_tokens env epgReader)
       = Ok (tv, n)
    /\ xml_Marshal env tv = Ok xmlData
    /\ p' = {| p_iptvURL := p_iptvURL p; p_epgURL := p_epgURL p;
               p_baseAddress := p_baseAddress p; p_userAgent := p_userAgent p;
               p_filters := p_filters p; p_playlist := Some pl;
               p_epg := Some tv; p_epgData := xmlHeader +:+ xmlData;
               p_lastRefresh := time_Now env |}.
Proof.
  unfold Refresh, loadPlaylist.
  destruct (loadReader env (p_iptvURL p) (p_userAgent p)) as [reader| |];
    simpl; try done.
  destruct (loadM3u env reader _) as [pl| |]; try done.
  destruct (loadReader env (p_epgURL p) (p_userAgent p)) as [epgReader| |];
    try done.
  destruct (loadXMLTv _ _) as [[tv n]| |] eqn:Hx; try done.
  destruct (xml_Marshal env tv) as [xmlData| |] eqn:Hm; try done.
  intros [= <-]. by exists pl, epgReader, tv, n, xmlData.
Qed.

(** X21: [Refresh] succeeds exactly when the playlist loads and parses,
    the guide is retrieved, every element decodes and the document
    marshals; the provider then serves the text of the new playlist, the
    fixed XML header followed by the marshalled document, and the time of
    the clock. *)
Theorem Refresh_success (env : Env) (p p' : Provider) :
  Refresh env p = (p', Ok tt) <->
  exists pl epgReader tv n xmlData,
    loadPlaylist env p = Ok pl
    /\ loadReader env (p_epgURL p) (p_userAgent p) = Ok epgReader
    /\ loadXMLTv (set_playlist p (Some pl)) (xml_tokens env epgReader)
       = Ok (tv, n)
    /\ xml_Marshal env tv = Ok xmlData
    /\ same_config p' p
    /\ p_playlist p' = Some pl /\ p_epg p' = Some tv
    /\ GetM3u p' = Ok (m3u pl)
    /\ GetEpgXML p' = xmlHeader +:+ xmlData
    /\ GetLastRefresh p' = time_Now env.
Proof.
  split.
  - intros (pl & epgReader & tv & n & xmlData & H1 & H2 & H3 & H4 & ->)
      %Refresh_Ok_inv.
    exists pl, epgReader, tv, n, xmlData. by repeat split.
  - intros (pl & epgReader & tv & n & xmlData & H1 & H2 & H3 & H4
            & (Hc1 & Hc2 & Hc3 & Hc4 & Hc5) & Hpl & Hepg & _ & Hdata & Hlast).
    unfold Refresh. unfold loadPlaylist in H1.
    destruct (loadReader env (p_iptvURL p) (p_userAgent p)) as [reader| |];
      simpl in H1; try done.
    rewrite H1. unfold loadXMLTv in *. simpl in H3 |- *.
    rewrite H2, H3, H4. f_equal.
    destruct p'. unfold GetEpgXML, GetLastRefresh in *. simpl in *.
    by subst.
Qed.

(** X22: a successful cycle takes nothing from the snapshot the provider
    held before: any provider with the same configuration ends in the same
    state, and running the cycle again on the result, with the sources
    and the clock unchanged, reproduces it. *)
Theorem Refresh_fresh_snapshot (env : Env) (p p' : Provider) :
  Refresh env p = (p', Ok tt) ->
  (forall q, same_config q p -> Refresh env q = (p', Ok tt))
  /\ Refresh env p' = (p', Ok tt).
Proof.
  intros HOk.
  assert (forall q, same_config q p -> Refresh env q = (p', Ok tt)) as Hany.
  { intros q Hq. destruct q as [qi qe qb qu qf qpl qepg qd ql].
    unfold same_config in Hq. simpl in Hq.
    destruct Hq as (-> & -> & -> & -> & ->).
    apply Refresh_Ok_inv in HOk
      as (pl & epgReader & tv & n & xmlData & H1 & H2 & H3 & H4 & ->).
    unfold Refresh. unfold loadPlaylist in H1. simpl.
    destruct (loadReader env (p_iptvURL p) (p_userAgent p)) as [reader| |];
      simpl in H1; try done.
    rewrite H1, H2. unfold loadXMLTv in *. simpl in H3 |- *.
    by rewrite H3, H4. }
  split; [done|]. apply Hany.
  pose proof (Refresh_config env p) as Hc. by rewrite HOk in Hc.
Qed.

(** X23: after a successful cycle the guide the provider holds fits the
    playlist it holds: every channel and every programme of the document
    refers to the non-empty [tvg-id] of a track of the playlist. *)
Theorem Refresh_epg_fits_playlist (env : Env) (p p' : Provider) :
  Refresh env p = (p', Ok tt) ->
  exists pl tv,
    p_playlist p' = Some pl /\ p_epg p' = Some tv
    /\ (forall P, P ∈ xmltv.Programmes tv ->
          exists t, t ∈ tracks pl
                    /\ tag t "tvg-id" = xmltv.Programme_Channel P
                    /\ tag t "tvg-id" <> "")
    /\ (forall c, c ∈ xmltv.Channels tv ->
          exists t, t ∈ tracks pl /\ tag t "tvg-id" = xmltv.ID c
                    /\ tag t "tvg-id" <> "").
Proof.
  intros (pl & epgReader & tv & n & xmlData & H1 & H2 & H3 & H4 & ->)
    %Refresh_Ok_inv.
  exists pl, tv. split; [done|]. split; [done|].
  unfold loadXMLTv in H3. simpl in H3.
  pose proof (loadXMLTv_loop_spec (channelsOf (tracks pl) ∅)
                (xml_tokens env epgReader) xmltv.empty 0 0) as Hloop.
  rewrite H3 in Hloop. destruct Hloop as (_ & HP & HC & _). simpl in HP, HC.
  assert (forall key, isChannel (channelsOf (tracks pl) ∅) key = true ->
            exists t, t ∈ tracks pl /\ tag t "tvg-id" = key
                      /\ tag t "tvg-id" <> "") as Hkey.
  { intros key Hk. apply isChannel_retained in Hk.
    unfold retainedChannelIDs in Hk. rewrite elem_of_list_to_set in Hk.
    apply list_elem_of_filter in Hk as [Hne Hk].
    apply list_elem_of_fmap in Hk as (t & -> & Ht). by exists t. }
  split.
  - intros P. rewrite HP. intros [Hk _]%list_elem_of_filter. by apply Hkey.
  - intros c. rewrite HC. intros [Hk _]%list_elem_of_filter. by apply Hkey.
Qed.

Lemma Refresh_fresh_snapshot_witness :
  Refresh sources_up (Refresh sources_up serving).1
  = ((Refresh sources_up serving).1, Ok tt).
Proof.
  apply (Refresh_fresh_snapshot sources_up serving
           (Refresh sources_up serving).1).
  vm_compute. reflexivity.
Defined.

Lemma Refresh_epg_fits_playlist_witness :
  exists pl tv,
    p_playlist (Refresh sources_up serving).1 = Some pl
    /\ p_epg (Refresh sources_up serving).1 = Some tv
    /\ (forall P, P ∈ xmltv.Programmes tv ->
          exists t, t ∈ tracks pl
                    /\ tag t "tvg-id" = xmltv.Programme_Channel P
                    /\ tag t "tvg-id" <> "")
    /\ (forall c, c ∈ xmltv.Channels tv ->
          exists t, t ∈ tracks pl /\ tag t "tvg-id" = xmltv.ID c
                    /\ tag t "tvg-id" <> "").
Proof.
  apply (Refresh_epg_fits_playlist sources_up serving).
  vm_compute. reflexivity.
Defined.

(** * A well-formed fragment is removed whole *)

Lemma length_append (a b : string) :
  String.length (a +:+ b) = (String.length a + String.length b)%nat.
Proof.
  induction a as [|x a IH]; [done|].
  change (S (String.length (a +:+ b)) = S (String.length a + String.length b)).
  by rewrite IH.
Qed.

Lemma match_spaces (ws rest : string) :
  allb regexp.is_space ws = true ->
  startsWith regexp.is_space rest = false ->
  regexp.matchHere [regexp.Star regexp.is_space] (ws +:+ rest)
  = Some (String.length ws).
Proof.
  intros Hws Hrest. induction ws as [|c ws IH].
  - change (EmptyString +:+ rest) with rest.
    destruct rest as [|d rest]; [done|]. simpl in *. by rewrite Hrest.
  - simpl in Hws. apply andb_prop in Hws as [Hc Hws].
    change (String c ws +:+ rest) with (String c (ws +:+ rest)).
    simpl in *. by rewrite Hc, (IH Hws).
Qed.

Lemma match_body (w ws rest : string) :
  allb regexp.not_quote w = true ->
  allb regexp.is_space ws = true ->
  startsWith regexp.is_space rest = false ->
  regexp.matchHere
    [regexp.Star regexp.not_quote; regexp.Lit "}"%char;
     regexp.Lit regexp.quote; regexp.Star regexp.is_space]
    (w +:+ String "}" (String regexp.quote (ws +:+ rest)))
  = Some (String.length w + 2 + String.length ws)%nat.
Proof.
  intros Hw Hws Hrest. pose proof (match_spaces ws rest Hws Hrest) as Hsp.
  induction w as [|c w IH].
  - change (EmptyString +:+ ?s) with s. simpl in *. by rewrite Hsp.
  - simpl in Hw. apply andb_prop in Hw as [Hc Hw]. specialize (IH Hw).
    change (String c w +:+ ?s) with (String c (w +:+ s)).
    simpl in *. by rewrite Hc, IH.
Qed.

Lemma match_fragment (w ws rest : string) :
  allb regexp.not_quote w = true ->
  allb regexp.is_space ws = true ->
  startsWith regexp.is_space rest = false ->
  regexp.matchHere reXuiid (xuiFragment w ws +:+ rest)
  = Some (String.length (xuiFragment w ws)).
Proof.
  intros Hw Hws Hrest.
  change (xuiFragment w ws +:+ rest)
    with ("xui-id=" +:+ String regexp.quote
            (String "{" ((w +:+ String "}" (String regexp.quote ws)) +:+ rest))).
  rewrite append_assoc.
  change (String "}" (String regexp.quote ws) +:+ rest)
    with (String "}" (String regexp.quote (ws +:+ rest))).
  unfold xuiFragment.
  pose proof (match_body w ws rest Hw Hws Hrest) as Hb.
  unfold reXuiid. simpl in *. rewrite Hb. simpl.
  rewrite !length_append. simpl. do 2 f_equal. lia.
Qed.

Lemma removeFrom_skip (re : regexp.Regexp) (s1 s2 : string) :
  regexp.removeFrom re (String.length s1) (s1 +:+ s2)
  = regexp.removeFrom re 0 s2.
Proof.
  induction s1 as [|c s1 IH]; [done|].
  change (String c s1 +:+ s2) with (String c (s1 +:+ s2)).
  destruct s1; exact IH.
Qed.

Lemma removeFrom_no_x (pre s : string) :
  allb (fun c => negb (Ascii.eqb c "x")) pre = true ->
  regexp.removeFrom reXuiid 0 (pre +:+ s)
  = pre +:+ regexp.removeFrom reXuiid 0 s.
Proof.
  induction pre as [|c pre IH]; intros Hpre; [done|].
  simpl in Hpre. apply andb_prop in Hpre as [Hc Hpre].
  change (String c pre +:+ ?t) with (String c (pre +:+ t)).
  apply negb_true_iff in Hc.
  assert (regexp.matchHere reXuiid (String c (pre +:+ s)) = None) as Hnone.
  { change reXuiid with (regexp.Lit "x"%char :: tl reXuiid).
    cbn [regexp.matchHere]. by rewrite Ascii.eqb_sym, Hc. }
  cbn [regexp.removeFrom]. rewrite Hnone. by rewrite (IH Hpre).
Qed.

(** X24: a well-formed fragment is removed whole, with the white space
    behind it.  For a line made of a prefix without the letter [x], the
    fragment with a value [w] free of double quotes, a run [ws] of white
    space, and a rest that does not start with white space, the stripped
    line is the prefix followed by the stripped rest. *)
Theorem stripXuiid_fragment (pre w ws rest : string) :
  allb (fun c => negb (Ascii.eqb c "x")) pre = true ->
  allb regexp.not_quote w = true ->
  allb regexp.is_space ws = true ->
  startsWith regexp.is_space rest = false ->
  stripXuiid (pre +:+ xuiFragment w ws +:+ rest) = pre +:+ stripXuiid rest.
Proof.
  intros Hpre Hw Hws Hrest. unfold stripXuiid, regexp.ReplaceAllString_empty.
  rewrite removeFrom_no_x by done. f_equal.
  pose proof (match_fragment w ws rest Hw Hws Hrest) as Hm.
  assert (exists body, xuiFragment w ws = String "x" body) as [body Hbody].
  { unfold xuiFragment. by eexists. }
  rewrite Hbody in Hm |- *.
  change (String "x" body +:+ rest) with (String "x" (body +:+ rest)) in *.
  cbn [regexp.removeFrom]. rewrite Hm. cbn [String.length].
  apply removeFrom_skip.
Qed.

Lemma stripXuiid_fragment_witness :
  stripXuiid ("#EXTINF:-1 " +:+ xuiFragment "123" " " +:+ "tvg-id=1,One")
  = "#EXTINF:-1 " +:+ stripXuiid "tvg-id=1,One".
Proof.
  apply (stripXuiid_fragment "#EXTINF:-1 " "123" " " "tvg-id=1,One");
    reflexivity.
Defined.
